(** * Iterator, Observer and Visitor demonstrations: a shallow embedding

    The three programs of the repository (src/iterator/iterator.cpp,
    src/observer/observer.cpp, src/visitor/visitor.cpp) are embedded as
    pure functions with explicit state passing.

    - C++ [int] is a 32-bit two's complement integer and [std::size_t] a
      64-bit unsigned one (the LP64 and LLP64 data models); values are
      carried in [Z] and every conversion is written out.
    - A [throw] is a [Throw] outcome; behaviour the language leaves
      undefined is an [Undefined] outcome (or [None] for pointer
      dereferences in the observer demo).
    - Objects that are reached through pointers or references (cursors,
      observers) live in a finite map from addresses to object states.
    - Standard output is the list of lines written so far. *)

From stdpp Require Import gmap strings list fin_maps pretty.
From Stdlib Require Import ZArith Lia.

Open Scope string_scope.
Open Scope list_scope.

(** ** Machine integers *)

Module CInt.

Local Open Scope Z_scope.

Definition INT_BITS : Z := 32.
Definition SIZE_BITS : Z := 64.

Definition INT_MAX : Z := 2 ^ (INT_BITS - 1) - 1.
Definition INT_MIN : Z := - 2 ^ (INT_BITS - 1).

(** The values an [int] variable can hold. *)
Definition in_int (z : Z) : Prop := INT_MIN ≤ z ≤ INT_MAX.

(** Conversion of an integer value to [int]: reduction modulo [2^32] into
    the signed range (what [return items.size();] does in a function
    returning [int]). *)
Definition to_int (z : Z) : Z :=
  (z + 2 ^ (INT_BITS - 1)) mod 2 ^ INT_BITS - 2 ^ (INT_BITS - 1).

(** Conversion of an integer value to [std::size_t]: reduction modulo
    [2^64] (what the usual arithmetic conversions do to the [int] operand
    of [index < items.size()], and to the subscript of [items[index]]). *)
Definition to_size_t (z : Z) : Z := z mod 2 ^ SIZE_BITS.

End CInt.

(** ** Outcomes of calls that may throw *)

Inductive exception : Type :=
  | out_of_range (what : string).

Inductive outcome (A : Type) : Type :=
  | Return (a : A)
  | Throw (e : exception)
  | Undefined.

Arguments Return {A} a.
Arguments Throw {A} e.
Arguments Undefined {A}.

(** * src/iterator/iterator.cpp *)

Module IteratorDemo.

Import CInt.
Local Open Scope Z_scope.

Section Collection.

Context {T : Type}.

(** [CustomCollection<T>]: the private [std::vector<T> items]. *)
Record CustomCollection : Type := mkCollection { items : list T }.

(** [CustomCollection()] (the trace line of the constructor is not
    modelled: no operation below reads standard output). *)
Definition new_collection : CustomCollection := {| items := [] |}.

(** [void add(const T &item) { items.push_back(item); }] *)
Definition add (c : CustomCollection) (item : T) : CustomCollection :=
  {| items := items c ++ [item] |}.

(** [items.size()], a [std::size_t]. *)
Definition vector_size (c : CustomCollection) : Z :=
  Z.of_nat (length (items c)).

(** [int size() const { return items.size(); }] *)
Definition size (c : CustomCollection) : Z := to_int (vector_size c).

(** [items[index]]: the subscript is converted to [size_type]; reading
    past the end is undefined. *)
Definition vector_at (c : CustomCollection) (index : Z) : outcome T :=
  match items c !! Z.to_nat (to_size_t index) with
  | Some x => Return x
  | None => Undefined
  end.

(** [T get(int index) const]: in [index < items.size()] the [int] operand
    is converted to [std::size_t]. *)
Definition get (c : CustomCollection) (index : Z) : outcome T :=
  if (0 <=? index) && (to_size_t index <? vector_size c)
  then vector_at c index
  else Throw (out_of_range "Index out of range").

(** [ForwardIterator]: the reference [collection] is the container the
    operations below receive; [currentIndex] is the object's own state. *)
Record ForwardIterator : Type := mkIterator { currentIndex : Z }.

(** [ForwardIterator(const CustomCollection<T> &coll)], which is also what
    [createIterator()] builds. *)
Definition createIterator (c : CustomCollection) : ForwardIterator :=
  {| currentIndex := 0 |}.

(** [bool hasNext() { return currentIndex < collection.size(); }] *)
Definition hasNext (c : CustomCollection) (it : ForwardIterator) : bool :=
  currentIndex it <? size c.

(** [T next()]: the post-increment of [currentIndex] is sequenced before
    the call of [get], so the increment stays when [get] throws. The
    increment is written with the conversion to [int]; it is reached only
    after [currentIndex < size()], so it cannot leave the range of [int]. *)
Definition next (c : CustomCollection) (it : ForwardIterator)
  : outcome T * ForwardIterator :=
  if negb (hasNext c it)
  then (Throw (out_of_range "No more elements"), it)
  else (get c (currentIndex it),
        {| currentIndex := to_int (currentIndex it + 1) |}).

(** [while (it.hasNext()) { ... it.next() ... }]: the elements retrieved
    and the cursor the loop leaves. [None] when the fuel runs out; an
    exception or undefined behaviour in the body ends the loop. *)
Fixpoint traverse (fuel : nat) (c : CustomCollection) (it : ForwardIterator)
  : option (outcome (list T) * ForwardIterator) :=
  match fuel with
  | O => None
  | S fuel' =>
      if hasNext c it then
        match next c it with
        | (Return x, it') =>
            match traverse fuel' c it' with
            | Some (Return xs, it'') => Some (Return (x :: xs), it'')
            | other => other
            end
        | (Throw e, it') => Some (Throw e, it')
        | (Undefined, it') => Some (Undefined, it')
        end
      else Some (Return [], it)
  end.

(** A run of [add] calls, one per element of [xs], in order. *)
Definition add_all (c : CustomCollection) (xs : list T) : CustomCollection :=
  foldl add c xs.

(** Cursors are objects of their own: [createIterator] allocates one, and
    every later call names the cursor it is made on. A world holds the one
    container all its cursors refer to and the cursors by address; a call
    of [add] changes the container under every cursor. *)
Record World : Type := mkWorld {
  collection : CustomCollection;
  cursors : gmap nat ForwardIterator
}.

(** A container and no cursor yet. *)
Definition start (c : CustomCollection) : World :=
  {| collection := c; cursors := ∅ |}.

Inductive op : Type :=
  | CallAdd (item : T)
  | CallCreateIterator
  | CallHasNext (p : nat)
  | CallNext (p : nat).

Inductive observation : Type :=
  | Added
  | Created (p : nat)
  | HasNextIs (b : bool)
  | NextIs (r : outcome T).

(** One call. [None] when the call names an address that holds no cursor. *)
Definition exec (w : World) (o : op) : option (World * observation) :=
  match o with
  | CallAdd item =>
      Some ({| collection := add (collection w) item; cursors := cursors w |},
            Added)
  | CallCreateIterator =>
      let p := fresh (dom (cursors w)) in
      Some ({| collection := collection w;
               cursors := <[p := createIterator (collection w)]> (cursors w) |},
            Created p)
  | CallHasNext p =>
      match cursors w !! p with
      | Some it => Some (w, HasNextIs (hasNext (collection w) it))
      | None => None
      end
  | CallNext p =>
      match cursors w !! p with
      | Some it =>
          let r := next (collection w) it in
          Some ({| collection := collection w;
                   cursors := <[p := r.2]> (cursors w) |},
                NextIs r.1)
      | None => None
      end
  end.

(** A sequence of calls, with what each returned. *)
Fixpoint run (ops : list op) (w : World) : option (World * list observation) :=
  match ops with
  | [] => Some (w, [])
  | o :: ops' =>
      match exec w o with
      | Some (w', ob) =>
          match run ops' w' with
          | Some (w'', obs) => Some (w'', ob :: obs)
          | None => None
          end
      | None => None
      end
  end.

(** The calls of [ops] that are made on cursor [p] only. *)
Definition on_cursor (p : nat) (o : op) : Prop :=
  match o with
  | CallAdd _ | CallCreateIterator => False
  | CallHasNext q | CallNext q => q = p
  end.

(** The calls that leave the container as it is. *)
Definition is_cursor_call (o : op) : Prop :=
  match o with
  | CallAdd _ => False
  | CallCreateIterator | CallHasNext _ | CallNext _ => True
  end.

End Collection.

Arguments CustomCollection T : clear implicits.

End IteratorDemo.

(** * src/observer/observer.cpp *)

Module ObserverDemo.

Local Open Scope Z_scope.

(** An [Observer*]: the address of an observer object. *)
Abbreviation Observer_ptr := nat (only parsing).

(** [ConcreteSubject]: [int state] and [std::vector<Observer*> observers]. *)
Record ConcreteSubject : Type := mkSubject {
  subject_state : Z;
  observers : list Observer_ptr
}.

(** [ConcreteObserver]: [int state], the mirrored state. *)
Record ConcreteObserver : Type := mkObserver { observer_state : Z }.

(** What a [Subject*] points to: a [ConcreteSubject], or an object of some
    other class that implements [Subject]. *)
Inductive Subject : Type :=
  | IsConcreteSubject (s : ConcreteSubject)
  | OtherSubject (reported_state : Z).

(** The observer objects by address, the lines written to standard output,
    and [update_calls], an instrumentation the source does not have: the
    receiver of every call of [ConcreteObserver::update], in call order. *)
Record World : Type := mkWorld {
  heap : gmap nat ConcreteObserver;
  stdout : list string;
  update_calls : list Observer_ptr
}.

(** [ConcreteSubject()]: neither member is initialised by the constructor;
    [indeterminate] is the value [state] happens to hold. *)
Definition new_ConcreteSubject (indeterminate : Z) (w : World)
  : ConcreteSubject * World :=
  ({| subject_state := indeterminate; observers := [] |},
   {| heap := heap w;
      stdout := stdout w ++ ["ConcreteSubject created"];
      update_calls := update_calls w |}).

(** [ConcreteObserver()]: a new object at an unused address. *)
Definition new_ConcreteObserver (indeterminate : Z) (w : World)
  : Observer_ptr * World :=
  let p := fresh (dom (heap w)) in
  (p,
   {| heap := <[p := {| observer_state := indeterminate |}]> (heap w);
      stdout := stdout w ++ ["ConcreteObserver created"];
      update_calls := update_calls w |}).

(** [void attach(Observer* observer) { observers.push_back(observer); }] *)
Definition attach (s : ConcreteSubject) (observer : Observer_ptr)
  : ConcreteSubject :=
  {| subject_state := subject_state s;
     observers := observers s ++ [observer] |}.

(** [std::remove_if(first, last, pred)] followed by [erase] of the tail it
    returns: the elements for which [pred] is false, in their order. *)
Fixpoint remove_if {A : Type} (pred : A → bool) (l : list A) : list A :=
  match l with
  | [] => []
  | x :: l' => if pred x then remove_if pred l' else x :: remove_if pred l'
  end.

(** [void detach(Observer* observer)]: the predicate is [ptr == observer]. *)
Definition detach (s : ConcreteSubject) (observer : Observer_ptr)
  : ConcreteSubject :=
  {| subject_state := subject_state s;
     observers := remove_if (λ ptr, Nat.eqb ptr observer) (observers s) |}.

(** [void setState(int state) { this->state = state; }] *)
Definition setState (s : ConcreteSubject) (state : Z) : ConcreteSubject :=
  {| subject_state := state; observers := observers s |}.

(** [int getState() const override { return state; }] *)
Definition getState (s : ConcreteSubject) : Z := subject_state s.

(** [dynamic_cast<ConcreteSubject*>(subject)]: null for a null pointer and
    for an object of another class. *)
Definition dynamic_cast_ConcreteSubject (subject : option Subject)
  : option ConcreteSubject :=
  match subject with
  | Some (IsConcreteSubject s) => Some s
  | Some (OtherSubject _) => None
  | None => None
  end.

(** [void ConcreteObserver::update(Subject* subject)] called on the object
    at address [self]. [None] when no observer lives at [self]. *)
Definition update (self : Observer_ptr) (subject : option Subject) (w : World)
  : option World :=
  match heap w !! self with
  | None => None
  | Some _ =>
      match dynamic_cast_ConcreteSubject subject with
      | Some concreteSubject =>
          let state := getState concreteSubject in
          Some {| heap := <[self := {| observer_state := state |}]> (heap w);
                  stdout := stdout w ++ [("ConcreteObserver updated: " +:+ pretty state)%string];
                  update_calls := update_calls w ++ [self] |}
      | None =>
          Some {| heap := heap w;
                  stdout := stdout w;
                  update_calls := update_calls w ++ [self] |}
      end
  end.

(** The line an observer writes when it mirrors [state]. *)
Definition update_line (state : Z) : string :=
  "ConcreteObserver updated: " +:+ pretty state.

(** [for (auto& observer : observers) observer->update(this);] *)
Fixpoint notify_loop (this : ConcreteSubject) (obs : list Observer_ptr)
  (w : World) : option World :=
  match obs with
  | [] => Some w
  | observer :: rest =>
      match update observer (Some (IsConcreteSubject this)) w with
      | Some w' => notify_loop this rest w'
      | None => None
      end
  end.

(** [void notify()] *)
Definition notify (this : ConcreteSubject) (w : World) : option World :=
  notify_loop this (observers this) w.

(** Every attached pointer is the address of a live observer. *)
Definition attached_live (s : ConcreteSubject) (w : World) : Prop :=
  Forall (λ p, is_Some (heap w !! p)) (observers s).

(** The mirrored state of the observer at [p]. *)
Definition mirrored (w : World) (p : Observer_ptr) : option Z :=
  observer_state <$> heap w !! p.

(** How often [update] has been called on the observer at [p]. *)
Definition updates_of (w : World) (p : Observer_ptr) : nat :=
  count_occ Nat.eq_dec (update_calls w) p.

(** [~ConcreteObserver()]: the object at [p] ends its life. The destructor
    writes its line and nothing else: it detaches the observer from no
    subject. [None] when no observer lives at [p]. *)
Definition destroy_ConcreteObserver (p : Observer_ptr) (w : World)
  : option World :=
  match heap w !! p with
  | None => None
  | Some _ =>
      Some {| heap := delete p (heap w);
              stdout := stdout w ++ ["ConcreteObserver destroyed"];
              update_calls := update_calls w |}
  end.

(** [~ConcreteSubject()]: writes its line; the vector of pointers is
    released and no observer is touched. *)
Definition destroy_ConcreteSubject (s : ConcreteSubject) (w : World) : World :=
  {| heap := heap w;
     stdout := stdout w ++ ["ConcreteSubject destroyed"];
     update_calls := update_calls w |}.

End ObserverDemo.

(** * src/visitor/visitor.cpp *)

Module VisitorDemo.

(** [Lion] and [Tiger]: the private [std::string name]. *)
Record Lion : Type := mkLion { Lion_getName : string }.
Record Tiger : Type := mkTiger { Tiger_getName : string }.

(** What a [std::unique_ptr<Animal>] owns: an object of one of the two
    classes derived from [Animal]. *)
Inductive Animal : Type :=
  | IsLion (lion : Lion)
  | IsTiger (tiger : Tiger).

(** [Lion(const std::string& name)] and [Tiger(const std::string& name)],
    with the line each writes. *)
Definition new_Lion (name : string) (out : list string) : Lion * list string :=
  ({| Lion_getName := name |}, out ++ [("Lion " +:+ name +:+ " created")%string]).

Definition new_Tiger (name : string) (out : list string) : Tiger * list string :=
  ({| Tiger_getName := name |}, out ++ [("Tiger " +:+ name +:+ " created")%string]).

(** [AnimalVisitor]: the two overloads of the pure virtual [visit]. A
    handler may change the visitor object and write to standard output. *)
Class AnimalVisitor (V : Type) : Type := {
  visit_Lion : Lion → V * list string → V * list string;
  visit_Tiger : Tiger → V * list string → V * list string
}.

(** [void Lion::accept(AnimalVisitor& visitor) const]: the call of
    [visitor.visit] on [*this], a [const Lion&], selects the Lion overload. *)
Definition Lion_accept `{AnimalVisitor V} (this : Lion) (st : V * list string)
  : V * list string :=
  visit_Lion this st.

(** [void Tiger::accept(AnimalVisitor& visitor) const], likewise. *)
Definition Tiger_accept `{AnimalVisitor V} (this : Tiger) (st : V * list string)
  : V * list string :=
  visit_Tiger this st.

(** [animal->accept(visitor)]: the virtual call through [Animal]. *)
Definition Animal_accept `{AnimalVisitor V} (animal : Animal)
  (st : V * list string) : V * list string :=
  match animal with
  | IsLion lion => Lion_accept lion st
  | IsTiger tiger => Tiger_accept tiger st
  end.

(** [FeedingVisitor]: no data members. *)
Inductive FeedingVisitor : Type := mkFeedingVisitor.

Definition new_FeedingVisitor (out : list string)
  : FeedingVisitor * list string :=
  (mkFeedingVisitor, out ++ ["FeedingVisitor created"]).

Definition FeedingVisitor_visit_Lion (lion : Lion)
  (st : FeedingVisitor * list string) : FeedingVisitor * list string :=
  (st.1, st.2 ++ [("Feeding to Lion: " +:+ Lion_getName lion)%string]).

Definition FeedingVisitor_visit_Tiger (tiger : Tiger)
  (st : FeedingVisitor * list string) : FeedingVisitor * list string :=
  (st.1, st.2 ++ [("Feeding to Tiger: " +:+ Tiger_getName tiger)%string]).

#[export] Instance FeedingVisitor_AnimalVisitor : AnimalVisitor FeedingVisitor := {
  visit_Lion := FeedingVisitor_visit_Lion;
  visit_Tiger := FeedingVisitor_visit_Tiger
}.

(** [Zoo]: [std::vector<std::unique_ptr<Animal>> animals]. *)
Record Zoo : Type := mkZoo { animals : list Animal }.

Definition new_Zoo (out : list string) : Zoo * list string :=
  ({| animals := [] |}, out ++ ["Zoo created"]).

(** [void addAnimal(std::unique_ptr<Animal> animal)] *)
Definition addAnimal (zoo : Zoo) (animal : Animal) : Zoo :=
  {| animals := animals zoo ++ [animal] |}.

(** [void Zoo::accept(AnimalVisitor& visitor)] *)
Definition Zoo_accept `{AnimalVisitor V} (zoo : Zoo) (st : V * list string)
  : V * list string :=
  let st1 := (st.1, st.2 ++ ["---START---"]) in
  let st2 := foldl (λ acc animal, Animal_accept animal acc) st1 (animals zoo) in
  (st2.1, st2.2 ++ ["----END----"]).

(** A visitor used to observe dispatch: each handler notes which overload
    ran and on which animal, and writes nothing. *)
Inductive handler_call : Type :=
  | LionHandler (lion : Lion)
  | TigerHandler (tiger : Tiger).

#[export] Instance Recorder_AnimalVisitor : AnimalVisitor (list handler_call) := {
  visit_Lion := λ lion st, (st.1 ++ [LionHandler lion], st.2);
  visit_Tiger := λ tiger st, (st.1 ++ [TigerHandler tiger], st.2)
}.

(** The handler that matches the class of an animal. *)
Definition matching_handler (animal : Animal) : handler_call :=
  match animal with
  | IsLion lion => LionHandler lion
  | IsTiger tiger => TigerHandler tiger
  end.

(** The line the feeding operation writes for an animal. *)
Definition feeding_line (animal : Animal) : string :=
  match animal with
  | IsLion lion => "Feeding to Lion: " +:+ Lion_getName lion
  | IsTiger tiger => "Feeding to Tiger: " +:+ Tiger_getName tiger
  end.

(** A visitor whose handlers only write behind what standard output
    already holds, as every handler that prints to [std::cout] does. *)
Definition appends_only (V : Type) `{AnimalVisitor V} : Prop :=
  (∀ lion (st : V * list string),
     ∃ lines, (visit_Lion lion st).2 = st.2 ++ lines) ∧
  (∀ tiger (st : V * list string),
     ∃ lines, (visit_Tiger tiger st).2 = st.2 ++ lines).

(** The name an animal was constructed with. *)
Definition Animal_name (animal : Animal) : string :=
  match animal with
  | IsLion lion => Lion_getName lion
  | IsTiger tiger => Tiger_getName tiger
  end.

(** The line feed character, code 10 (bits from the lowest). *)
Definition line_feed : Ascii.ascii :=
  Ascii.Ascii false true false true false false false false.

(** The bytes standard output holds: every statement of this program
    ends in [<< std::endl], which writes a line feed behind the text of
    the statement; nothing in that text is escaped. *)
Fixpoint stdout_bytes (out : list string) : string :=
  match out with
  | [] => ""
  | line :: rest => line +:+ String line_feed (stdout_bytes rest)
  end.

(** A text that holds no line feed. *)
Fixpoint newline_free (s : string) : Prop :=
  match s with
  | EmptyString => True
  | String ch s' => ch ≠ line_feed ∧ newline_free s'
  end.

End VisitorDemo.

(** * Facts about the machine integers *)

Module CIntFacts.

Import CInt.
Local Open Scope Z_scope.

Lemma INT_MAX_val : INT_MAX = 2147483647.
Proof. reflexivity. Qed.

Lemma INT_MIN_val : INT_MIN = -2147483648.
Proof. reflexivity. Qed.

Lemma to_int_range z : in_int (to_int z).
Proof.
  unfold in_int, to_int, INT_MIN, INT_MAX, INT_BITS.
  change (2 ^ (32 - 1)) with 2147483648. change (2 ^ 32) with 4294967296.
  pose proof (Z.mod_pos_bound (z + 2147483648) 4294967296 eq_refl). lia.
Qed.

Lemma to_int_id z : in_int z → to_int z = z.
Proof.
  unfold in_int, to_int, INT_MIN, INT_MAX, INT_BITS.
  change (2 ^ (32 - 1)) with 2147483648. change (2 ^ 32) with 4294967296.
  intros Hz. rewrite Z.mod_small by lia. lia.
Qed.

(** Narrowing a non-negative value never increases it. *)
Lemma to_int_le z : 0 ≤ z → to_int z ≤ z.
Proof.
  unfold to_int, INT_BITS.
  change (2 ^ (32 - 1)) with 2147483648. change (2 ^ 32) with 4294967296.
  intros Hz.
  pose proof (Z.mod_le (z + 2147483648) 4294967296 ltac:(lia) eq_refl). lia.
Qed.

Lemma to_size_t_id z : 0 ≤ z < 2 ^ SIZE_BITS → to_size_t z = z.
Proof. intros Hz. unfold to_size_t. by rewrite Z.mod_small. Qed.

Lemma to_size_t_int z : 0 ≤ z ≤ INT_MAX → to_size_t z = z.
Proof.
  intros Hz. apply to_size_t_id. rewrite INT_MAX_val in Hz.
  unfold SIZE_BITS. change (2 ^ 64) with 18446744073709551616. lia.
Qed.

(** The first value that does not fit an [int] becomes [INT_MIN]. *)
Lemma to_int_wraps : to_int 2147483648 = -2147483648.
Proof. reflexivity. Qed.

End CIntFacts.

(** * The sequence container and its cursor *)

Module IteratorSpec.

Import CInt CIntFacts IteratorDemo.
Local Open Scope Z_scope.

Section Container.

Context {T : Type}.
Implicit Types (c : CustomCollection T) (it : ForwardIterator) (xs : list T).

Lemma items_add_all c xs : items (add_all c xs) = items c ++ xs.
Proof.
  unfold add_all. revert c.
  induction xs as [|x xs IH]; intros c; simpl.
  - by rewrite app_nil_r.
  - rewrite IH. simpl. by rewrite <- app_assoc.
Qed.

Lemma items_appended xs : items (add_all new_collection xs) = xs.
Proof. by rewrite items_add_all. Qed.

Lemma vector_size_nonneg c : 0 ≤ vector_size c.
Proof. unfold vector_size. lia. Qed.

(** [size()] reports the number of elements as long as that fits an [int]. *)
Lemma size_exact c : vector_size c ≤ INT_MAX → size c = vector_size c.
Proof.
  intros Hc. unfold size. apply to_int_id.
  pose proof (vector_size_nonneg c). unfold in_int. rewrite INT_MIN_val. lia.
Qed.

(** In general it reports at most that number, and never more than
    [INT_MAX]. *)
Lemma size_le_vector_size c : size c ≤ vector_size c.
Proof. apply to_int_le, vector_size_nonneg. Qed.

Lemma size_le_INT_MAX c : size c ≤ INT_MAX.
Proof. apply to_int_range. Qed.

(** [get] in terms of the stored sequence. *)
Lemma get_inside c index x :
  0 ≤ index ≤ INT_MAX →
  items c !! Z.to_nat index = Some x →
  get c index = Return x.
Proof.
  intros Hi Hx. unfold get, vector_at.
  rewrite (to_size_t_int index Hi), Hx.
  apply lookup_lt_Some in Hx.
  assert ((index <? vector_size c) = true) as ->
    by (apply Z.ltb_lt; unfold vector_size; lia).
  by assert ((0 <=? index) = true) as -> by (apply Z.leb_le; lia).
Qed.

Lemma get_outside c index :
  in_int index →
  index < 0 ∨ vector_size c ≤ index →
  get c index = Throw (out_of_range "Index out of range").
Proof.
  intros Hi Hout. unfold get.
  destruct (Z.leb_spec 0 index) as [Hpos|Hneg]; [|done].
  destruct Hout as [?|Hge]; [lia|].
  rewrite to_size_t_int by (unfold in_int in Hi; lia).
  by assert ((index <? vector_size c) = false) as -> by (apply Z.ltb_ge; lia).
Qed.

Lemma hasNext_lt c it : hasNext c it = true ↔ currentIndex it < size c.
Proof. unfold hasNext. apply Z.ltb_lt. Qed.

Lemma hasNext_ge c it : hasNext c it = false ↔ size c ≤ currentIndex it.
Proof. unfold hasNext. apply Z.ltb_ge. Qed.

(** A successful [hasNext] on a cursor whose position is not negative
    means that the position names a stored element. *)
Lemma hasNext_position c it :
  0 ≤ currentIndex it → hasNext c it = true →
  0 ≤ currentIndex it < INT_MAX ∧
  ∃ x, items c !! Z.to_nat (currentIndex it) = Some x.
Proof.
  intros Hpos Hnext. apply hasNext_lt in Hnext.
  pose proof (size_le_vector_size c). pose proof (size_le_INT_MAX c).
  split; [lia|].
  apply lookup_lt_is_Some_2. unfold vector_size in *. lia.
Qed.

Lemma next_at_end c it :
  hasNext c it = false →
  next c it = (Throw (out_of_range "No more elements"), it).
Proof. intros Hend. unfold next. by rewrite Hend. Qed.

Lemma next_inside c it :
  0 ≤ currentIndex it → hasNext c it = true →
  ∃ x, items c !! Z.to_nat (currentIndex it) = Some x ∧
       next c it = (Return x, {| currentIndex := currentIndex it + 1 |}).
Proof.
  intros Hpos Hnext.
  destruct (hasNext_position c it Hpos Hnext) as [Hrange [x Hx]].
  exists x. split; [done|]. unfold next. rewrite Hnext. simpl.
  rewrite (get_inside c _ x) by (done || lia).
  rewrite to_int_id; [done|].
  unfold in_int. rewrite INT_MIN_val. lia.
Qed.

(** A call of [next] never moves a cursor to a negative position. *)
Lemma next_nonneg c it :
  0 ≤ currentIndex it → 0 ≤ currentIndex (next c it).2.
Proof.
  intros Hpos. destruct (hasNext c it) eqn:Hnext.
  - destruct (next_inside c it Hpos Hnext) as [x [_ ->]]. simpl. lia.
  - by rewrite next_at_end.
Qed.

(** The loop from a cursor that stands after [pre] retrieves the rest. *)
Lemma traverse_from c pre suf fuel :
  items c = pre ++ suf →
  vector_size c ≤ INT_MAX →
  (length suf < fuel)%nat →
  traverse fuel c {| currentIndex := Z.of_nat (length pre) |}
  = Some (Return suf, {| currentIndex := vector_size c |}).
Proof.
  intros Hitems Hfit. rewrite <- (size_exact c Hfit).
  revert pre fuel Hitems.
  induction suf as [|x suf IH]; intros pre fuel Hitems Hfuel;
    (destruct fuel as [|fuel]; [simpl in Hfuel; lia|]); simpl.
  - assert (size c = Z.of_nat (length pre)) as Hsize.
    { rewrite (size_exact c Hfit). unfold vector_size.
      by rewrite Hitems, app_nil_r. }
    assert (hasNext c {| currentIndex := Z.of_nat (length pre) |} = false)
      as -> by (apply hasNext_ge; simpl; lia).
    by rewrite Hsize.
  - set (it := {| currentIndex := Z.of_nat (length pre) |}).
    assert (hasNext c it = true) as Hnext.
    { apply hasNext_lt. rewrite (size_exact c Hfit). unfold vector_size.
      rewrite Hitems, length_app. simpl. lia. }
    rewrite Hnext.
    destruct (next_inside c it ltac:(simpl; lia) Hnext) as [y [Hy ->]].
    assert (y = x) as ->.
    { simpl in Hy. rewrite Nat2Z.id, Hitems in Hy.
      rewrite lookup_app_r, Nat.sub_diag in Hy by lia. by injection Hy. }
    specialize (IH (pre ++ [x]) fuel).
    rewrite length_app in IH. simpl in IH, Hfuel.
    replace (Z.of_nat (length pre + 1)) with (currentIndex it + 1) in IH
      by (simpl; lia).
    rewrite IH; [done| by rewrite <- app_assoc | lia].
Qed.

(** ** C1 *)

(** C1 (as amended): for every sequence of N appends to a fresh container
    with N at most [INT_MAX], a full traversal with a newly created cursor
    (any fuel above N lets the loop finish) retrieves exactly the appended
    elements, in append order, and leaves a cursor whose [hasNext()] is
    false. *)
Theorem traversal_yields_appended xs (fuel : nat) :
  Z.of_nat (length xs) ≤ INT_MAX →
  (length xs < fuel)%nat →
  let c := add_all new_collection xs in
  ∃ it', traverse fuel c (createIterator c) = Some (Return xs, it') ∧
         hasNext c it' = false.
Proof.
  intros Hfit Hfuel c.
  assert (items c = xs) as Hitems by apply items_appended.
  exists {| currentIndex := vector_size c |}. split.
  - apply (traverse_from c [] xs fuel); [done| |done].
    unfold vector_size. by rewrite Hitems.
  - apply hasNext_ge. simpl. apply size_le_vector_size.
Qed.

(** A container filled with [n] copies of one element. *)
Lemma vector_size_replicate (n : nat) (x : T) :
  vector_size (add_all new_collection (replicate n x)) = Z.of_nat n.
Proof. unfold vector_size. by rewrite items_appended, length_replicate. Qed.

(** When [size()] is not positive the loop stops before its first turn. *)
Lemma traverse_size_nonpositive c (fuel : nat) :
  size c ≤ 0 →
  traverse (S fuel) c (createIterator c) = Some (Return [], createIterator c).
Proof.
  intros Hsize. cbn [traverse].
  by assert (hasNext c (createIterator c) = false) as ->
    by (apply hasNext_ge; simpl; lia).
Qed.

(** A new cursor over a container whose [size()] is not positive. *)
Lemma new_cursor_at_end c :
  size c ≤ 0 →
  currentIndex (createIterator c) = 0 ∧
  hasNext c (createIterator c) = false ∧
  next c (createIterator c)
  = (Throw (out_of_range "No more elements"), createIterator c).
Proof.
  intros Hsize.
  assert (hasNext c (createIterator c) = false) as Hend
    by (apply hasNext_ge; simpl; lia).
  split_and!; [done..|by apply next_at_end].
Qed.

(** ** C2 *)

(** C2 (as amended): for every container built by appends that holds at
    most [INT_MAX] elements and every [int] index, [get(index)] throws
    [out_of_range] when [index < 0] or [index >= size()], and when
    [0 <= index < size()] it returns the element appended at that
    position. *)
Theorem get_bounds_checked xs (index : Z) :
  in_int index →
  Z.of_nat (length xs) ≤ INT_MAX →
  let c := add_all new_collection xs in
  (index < 0 ∨ size c ≤ index →
     get c index = Throw (out_of_range "Index out of range")) ∧
  (0 ≤ index < size c →
     ∃ x, xs !! Z.to_nat index = Some x ∧ get c index = Return x).
Proof.
  intros Hint Hfit c.
  assert (items c = xs) as Hitems by apply items_appended.
  assert (vector_size c = Z.of_nat (length xs)) as Hvs
    by (unfold vector_size; by rewrite Hitems).
  assert (size c = Z.of_nat (length xs)) as Hsize
    by (rewrite size_exact; lia).
  split.
  - intros Hout. apply get_outside; [done|lia].
  - intros Hin.
    destruct (lookup_lt_is_Some_2 xs (Z.to_nat index) ltac:(lia)) as [x Hx].
    exists x. split; [done|].
    apply get_inside; [lia | by rewrite Hitems].
Qed.

(** X2: for every container, whatever the number of its elements, and
    every [int] index, [get(index)] throws [out_of_range] exactly when the
    index is negative or not less than the number of stored elements, and
    otherwise returns the element stored at that position. *)
Theorem get_by_vector_size c (index : Z) :
  in_int index →
  (index < 0 ∨ vector_size c ≤ index ↔
     get c index = Throw (out_of_range "Index out of range")) ∧
  (0 ≤ index < vector_size c ↔
     ∃ x, items c !! Z.to_nat index = Some x ∧ get c index = Return x).
Proof.
  intros Hint.
  destruct (Z.lt_ge_cases index 0) as [Hneg|Hpos];
    [|destruct (Z.lt_ge_cases index (vector_size c)) as [Hlt|Hge]].
  - rewrite (get_outside c index) by (done || lia).
    split; [naive_solver|]. split; [lia|]. by intros [x [_ ?]].
  - destruct (lookup_lt_is_Some_2 (items c) (Z.to_nat index)
                ltac:(unfold vector_size in Hlt; lia)) as [x Hx].
    rewrite (get_inside c index x) by (done || unfold in_int in Hint; lia).
    split; [split; [lia|done]|]. split; [by exists x|lia].
  - rewrite (get_outside c index) by (done || lia).
    split; [naive_solver|]. split; [lia|]. by intros [x [_ ?]].
Qed.

(** The first element of a container of [n > 0] copies of [x]. *)
Lemma get_first_replicate (n : nat) (x : T) :
  (0 < n)%nat →
  get (add_all new_collection (replicate n x)) 0 = Return x.
Proof.
  intros Hn. apply get_inside; [rewrite INT_MAX_val; lia|].
  rewrite items_appended. change (Z.to_nat 0) with 0%nat.
  by apply lookup_replicate_2.
Qed.

(** ** C3 *)

(** C3 (as amended): for every cursor (its position is never negative:
    it starts at 0 and is only ever incremented) over a container that
    holds at most [INT_MAX] elements, [size()] is the number of stored
    elements and [hasNext()] is true iff the position is less than it;
    [next()] throws [out_of_range] and keeps the position when
    [hasNext()] is false; and when [hasNext()] is true it returns the
    stored element at the position and moves the position forward by
    exactly one. *)
Theorem cursor_contract c it :
  vector_size c ≤ INT_MAX →
  0 ≤ currentIndex it →
  size c = Z.of_nat (length (items c)) ∧
  (hasNext c it = true ↔ currentIndex it < Z.of_nat (length (items c))) ∧
  (hasNext c it = false →
     next c it = (Throw (out_of_range "No more elements"), it)) ∧
  (hasNext c it = true →
     ∃ x, items c !! Z.to_nat (currentIndex it) = Some x ∧
          next c it = (Return x, {| currentIndex := currentIndex it + 1 |})).
Proof.
  intros Hfit Hpos.
  pose proof (size_exact c Hfit) as Hsize. unfold vector_size in Hsize.
  split_and!.
  - done.
  - rewrite <- Hsize. apply hasNext_lt.
  - apply next_at_end.
  - by apply next_inside.
Qed.

(** ** Cursors as objects: C8 and C9 *)

Implicit Types (w : @World T) (o : @op T) (ops : list (@op T)).

Lemma run_cons o ops w w'' obs' :
  run (o :: ops) w = Some (w'', obs') →
  ∃ w' ob obs, exec w o = Some (w', ob) ∧ run ops w' = Some (w'', obs) ∧
               obs' = ob :: obs.
Proof.
  simpl. destruct (exec w o) as [[w' ob]|]; [|done].
  destruct (run ops w') as [[w3 obs]|] eqn:Hrun; [|done].
  intros [= Hw Hobs]. subst w'' obs'. by exists w', ob, obs.
Qed.

(** A property of worlds that every call of a class keeps holds after
    every run of such calls. *)
Lemma run_invariant (calls : @op T → Prop) (inv : @World T → Prop) :
  (∀ w o w' ob, calls o → inv w → exec w o = Some (w', ob) → inv w') →
  ∀ ops w w' obs,
    Forall calls ops → inv w → run ops w = Some (w', obs) → inv w'.
Proof.
  intros Hstep. induction ops as [|o ops IH]; intros w w' obs Hops Hw Hrun.
  - simpl in Hrun. by injection Hrun as <- _.
  - apply run_cons in Hrun as (w1 & ob & obs1 & Hexec & Hrun & _).
    apply Forall_cons in Hops as [Ho Hops].
    eapply IH; [done| |done]. by eapply Hstep.
Qed.

(** A call on cursor [p] touches neither the container nor another
    cursor. *)
Lemma exec_on_cursor_frame w o w' ob (p q : nat) :
  p ≠ q → on_cursor p o → exec w o = Some (w', ob) →
  collection w' = collection w ∧ cursors w' !! q = cursors w !! q.
Proof.
  intros Hpq Ho Hexec. destruct o as [x| |p'|p']; simpl in Ho; try done;
    subst p'; simpl in Hexec;
    destruct (cursors w !! p) as [it|]; try done;
    injection Hexec as <- _; simpl; [done|].
  split; [done|]. by apply lookup_insert_ne.
Qed.

(** What a call on cursor [q] returns, and where it leaves [q], depends
    only on the container and on [q] itself. *)
Lemma exec_on_cursor_local w1 w2 o (q : nat) :
  on_cursor q o →
  collection w1 = collection w2 → cursors w1 !! q = cursors w2 !! q →
  match exec w1 o, exec w2 o with
  | Some (w1', ob1), Some (w2', ob2) =>
      ob1 = ob2 ∧ collection w1' = collection w2' ∧
      cursors w1' !! q = cursors w2' !! q
  | None, None => True
  | _, _ => False
  end.
Proof.
  intros Ho Hc Hq. destruct o as [x| |p'|p']; simpl in Ho; try done;
    subst p'; unfold exec; rewrite <- Hq, <- Hc;
    destruct (cursors w1 !! q) as [it|] eqn:Hq1; try done.
  - split_and!; congruence.
  - cbn [collection cursors]. split_and!; [done..|].
    by rewrite !lookup_insert_eq.
Qed.

Lemma run_on_cursor_local (q : nat) ops :
  Forall (on_cursor q) ops →
  ∀ w1 w2,
    collection w1 = collection w2 → cursors w1 !! q = cursors w2 !! q →
    snd <$> run ops w1 = snd <$> run ops w2.
Proof.
  induction ops as [|o ops IH]; intros Hops w1 w2 Hc Hq; [done|].
  apply Forall_cons in Hops as [Ho Hops]. simpl.
  pose proof (exec_on_cursor_local w1 w2 o q Ho Hc Hq) as Hexec.
  destruct (exec w1 o) as [[w1' ob1]|], (exec w2 o) as [[w2' ob2]|];
    try done.
  destruct Hexec as (-> & Hc' & Hq').
  specialize (IH Hops w1' w2' Hc' Hq').
  destruct (run ops w1') as [[? ?]|], (run ops w2') as [[? ?]|];
    simpl in IH |- *; congruence.
Qed.

(** [createIterator] returns a cursor at position 0 at an address no
    earlier cursor has, and leaves the earlier cursors as they are. *)
Lemma exec_createIterator w :
  ∃ p, exec w CallCreateIterator
       = Some ({| collection := collection w;
                  cursors := <[p := {| currentIndex := 0 |}]> (cursors w) |},
               Created p) ∧
       cursors w !! p = None.
Proof.
  exists (fresh (dom (cursors w))). split; [done|].
  apply not_elem_of_dom, is_fresh.
Qed.

(** ** C8 *)

(** C8: for every two cursors [p] and [q] over the same container, a
    sequence of [hasNext()] and [next()] calls on [p] leaves the container
    and the position of [q] as they were, and every later sequence of
    calls on [q] returns what it would have returned without the calls on
    [p]. *)
Theorem cursors_do_not_interfere w (p q : nat) ops w' obs :
  p ≠ q → Forall (on_cursor p) ops → run ops w = Some (w', obs) →
  collection w' = collection w ∧
  cursors w' !! q = cursors w !! q ∧
  ∀ ops_q, Forall (on_cursor q) ops_q →
           snd <$> run ops_q w' = snd <$> run ops_q w.
Proof.
  intros Hpq Hops Hrun.
  assert (collection w' = collection w ∧ cursors w' !! q = cursors w !! q)
    as [Hc Hq].
  { revert Hrun.
    apply (run_invariant (on_cursor p)
             (λ v, collection v = collection w ∧
                   cursors v !! q = cursors w !! q) ); [|done..].
    intros v o v' ob Ho [Hc Hq] Hexec.
    destruct (exec_on_cursor_frame v o v' ob p q Hpq Ho Hexec) as [-> ->].
    done. }
  split_and!; [done..|].
  intros ops_q Hq_ops. by apply (run_on_cursor_local q).
Qed.

(** Two cursors created one after the other are two objects, each at
    position 0. *)
Lemma created_cursors_distinct w w1 w2 (p q : nat) :
  exec w CallCreateIterator = Some (w1, Created p) →
  exec w1 CallCreateIterator = Some (w2, Created q) →
  p ≠ q ∧
  cursors w2 !! p = Some {| currentIndex := 0 |} ∧
  cursors w2 !! q = Some {| currentIndex := 0 |}.
Proof.
  intros H1 H2.
  destruct (exec_createIterator w) as (p' & Hp & _).
  rewrite Hp in H1. injection H1 as <- <-.
  destruct (exec_createIterator
              {| collection := collection w;
                 cursors := <[p' := {| currentIndex := 0 |}]> (cursors w) |})
    as (q' & Hq & Hfresh).
  rewrite Hq in H2. injection H2 as <- <-. simpl in *.
  assert (p' ≠ q') as Hne.
  { intros ->. by rewrite lookup_insert_eq in Hfresh. }
  split_and!; [done| |].
  - rewrite lookup_insert_ne by done. apply lookup_insert_eq.
  - apply lookup_insert_eq.
Qed.

(** ** C9 *)

(** No call moves a cursor to a negative position, whatever happens to
    the container. *)
Lemma exec_positions_nonneg w o w' ob :
  (∀ p it, cursors w !! p = Some it → 0 ≤ currentIndex it) →
  exec w o = Some (w', ob) →
  ∀ p it, cursors w' !! p = Some it → 0 ≤ currentIndex it.
Proof.
  intros Hw Hexec p it. destruct o as [x| |q|q]; simpl in Hexec.
  - injection Hexec as <- _. apply Hw.
  - injection Hexec as <- _. simpl. rewrite lookup_insert.
    case_decide; [by intros [= <-]|apply Hw].
  - destruct (cursors w !! q); [|done]. injection Hexec as <- _. apply Hw.
  - destruct (cursors w !! q) as [itq|] eqn:Hq; [|done].
    injection Hexec as <- _. simpl. rewrite lookup_insert.
    case_decide; [|apply Hw]. intros [= <-].
    by eapply next_nonneg, Hw.
Qed.

(** X3: after every sequence of [add], [createIterator], [hasNext] and
    [next] calls that starts with a container and no cursor, the position
    of every cursor is non-negative. *)
Theorem run_positions_nonneg c ops w obs :
  run ops (start c) = Some (w, obs) →
  ∀ p it, cursors w !! p = Some it → 0 ≤ currentIndex it.
Proof.
  apply (run_invariant (λ _, True)
           (λ v, ∀ p it, cursors v !! p = Some it → 0 ≤ currentIndex it)).
  - intros v o v' ob _. apply exec_positions_nonneg.
  - by apply Forall_true.
  - intros p it. unfold start. cbn [cursors]. by rewrite lookup_empty.
Qed.

(** The invariant of C9 for one container [c]. *)
Lemma exec_positions_bounded c w o w' ob :
  is_cursor_call o →
  (collection w = c ∧
   ∀ p it, cursors w !! p = Some it → 0 ≤ currentIndex it ≤ vector_size c) →
  exec w o = Some (w', ob) →
  collection w' = c ∧
  ∀ p it, cursors w' !! p = Some it → 0 ≤ currentIndex it ≤ vector_size c.
Proof.
  intros Ho [Hc Hw] Hexec. destruct o as [x| |q|q]; simpl in Ho, Hexec.
  - done.
  - injection Hexec as <- _. simpl. split; [done|]. intros p it.
    rewrite lookup_insert. case_decide; [|apply Hw].
    intros [= <-]. simpl. pose proof (vector_size_nonneg c). lia.
  - destruct (cursors w !! q); [|done]. by injection Hexec as <- _.
  - destruct (cursors w !! q) as [itq|] eqn:Hq; [|done].
    injection Hexec as <- _. simpl. split; [done|]. intros p it.
    rewrite lookup_insert. case_decide; [|apply Hw]. intros [= <-].
    specialize (Hw q itq Hq). rewrite Hc.
    destruct (hasNext c itq) eqn:Hnext.
    + destruct (next_inside c itq ltac:(lia) Hnext) as [x [_ ->]]. simpl.
      apply hasNext_lt in Hnext. pose proof (size_le_vector_size c). lia.
    + by rewrite next_at_end.
Qed.

(** C9 (as amended): for every cursor reachable by a sequence of
    [createIterator], [hasNext] and [next] calls on an unmutated container,
    the position is between 0 and the number of stored elements, hence at
    most [size()] whenever that number is at most [INT_MAX]; a new cursor
    is at position 0; and a [next()] that throws leaves the position as it
    was. *)
Theorem cursor_position_bounded c ops w obs :
  Forall is_cursor_call ops →
  run ops (start c) = Some (w, obs) →
  collection w = c ∧
  (∀ p it, cursors w !! p = Some it →
     0 ≤ currentIndex it ≤ vector_size c ∧
     (vector_size c ≤ INT_MAX → currentIndex it ≤ size c)) ∧
  (∀ w' p, exec w CallCreateIterator = Some (w', Created p) →
     cursors w' !! p = Some {| currentIndex := 0 |}) ∧
  (∀ p it w' e, cursors w !! p = Some it →
     exec w (CallNext p) = Some (w', NextIs (Throw e)) →
     cursors w' !! p = Some it).
Proof.
  intros Hops Hrun.
  assert (collection w = c ∧
          ∀ p it, cursors w !! p = Some it →
                  0 ≤ currentIndex it ≤ vector_size c) as [Hc Hw].
  { revert Hrun.
    apply (run_invariant is_cursor_call
             (λ v, collection v = c ∧
                   ∀ p it, cursors v !! p = Some it →
                           0 ≤ currentIndex it ≤ vector_size c)
             (exec_positions_bounded c)); [done|].
    split; [done|]. intros p it. unfold start. simpl.
    by rewrite lookup_empty. }
  split_and!; [done| | |].
  - intros p it Hp. split; [by eapply Hw|].
    intros Hfit. rewrite (size_exact c Hfit). by eapply Hw.
  - intros w' p Hexec.
    destruct (exec_createIterator w) as (p' & Hp' & _).
    rewrite Hp' in Hexec. injection Hexec as <- <-. simpl.
    apply lookup_insert_eq.
  - intros p it w' e Hp Hexec. simpl in Hexec. rewrite Hp, Hc in Hexec.
    injection Hexec as <- Hthrow. simpl. rewrite lookup_insert_eq. f_equal.
    destruct (hasNext c it) eqn:Hnext.
    + destruct (next_inside c it ltac:(by eapply Hw) Hnext) as [x [_ Hx]].
      by rewrite Hx in Hthrow.
    + by rewrite next_at_end.
Qed.

(** The first call of [createIterator] on any container. *)
Lemma run_create_start c :
  run [CallCreateIterator] (start c)
  = Some ({| collection := c;
             cursors := {[ 0%nat := {| currentIndex := 0 |} ]} |},
          [Created 0%nat]).
Proof. reflexivity. Qed.

(** ** Further properties of the container *)

(** X4: what [size()] returns is an [int] that differs from the number of
    stored elements by a multiple of [2^32], never exceeds that number,
    and equals it exactly when the number is at most [INT_MAX]. *)
Theorem size_characterised c :
  in_int (size c) ∧
  (vector_size c - size c) mod 2 ^ INT_BITS = 0 ∧
  size c ≤ vector_size c ∧
  (size c = vector_size c ↔ vector_size c ≤ INT_MAX).
Proof.
  split_and!.
  - apply to_int_range.
  - unfold size, to_int, INT_BITS.
    change (2 ^ (32 - 1)) with 2147483648. change (2 ^ 32) with 4294967296.
    rewrite (Z.mod_eq (vector_size c + 2147483648) 4294967296) by done.
    replace (vector_size c -
             (vector_size c + 2147483648 -
              4294967296 * ((vector_size c + 2147483648) `div` 4294967296) -
              2147483648))
      with (((vector_size c + 2147483648) `div` 4294967296) * 4294967296)
      by lia.
    apply Z.mod_mul. done.
  - apply size_le_vector_size.
  - split; [|apply size_exact].
    intros <-. apply size_le_INT_MAX.
Qed.

(** X5: [add] puts the item behind the stored elements: the number of
    elements grows by one, [get] at the old number returns the item,
    [get] at every smaller index returns what it returned before and at
    every larger index throws; [size()] grows by one, except that it
    becomes [INT_MIN] when the container held [INT_MAX] elements. *)
Theorem add_then_get c (x : T) :
  vector_size c ≤ INT_MAX →
  vector_size (add c x) = vector_size c + 1 ∧
  get (add c x) (vector_size c) = Return x ∧
  (∀ index, in_int index → index < vector_size c →
            get (add c x) index = get c index) ∧
  (∀ index, in_int index → vector_size c < index →
            get (add c x) index = Throw (out_of_range "Index out of range")) ∧
  (vector_size c < INT_MAX → size (add c x) = size c + 1) ∧
  (vector_size c = INT_MAX → size (add c x) = INT_MIN).
Proof.
  intros Hfit.
  assert (vector_size (add c x) = vector_size c + 1) as Hgrow.
  { unfold vector_size, add. cbn [items]. rewrite length_app. simpl. lia. }
  pose proof (vector_size_nonneg c) as Hnonneg.
  split_and!; [done| | | | |].
  - apply get_inside; [lia|]. unfold add, vector_size. cbn [items].
    rewrite Nat2Z.id. by rewrite lookup_app_r, Nat.sub_diag by lia.
  - intros index Hint Hlt.
    destruct (Z.lt_ge_cases index 0) as [Hneg|Hpos].
    + by rewrite !get_outside by (done || lia).
    + destruct (lookup_lt_is_Some_2 (items c) (Z.to_nat index)
                  ltac:(unfold vector_size in Hlt; lia)) as [y Hy].
      rewrite (get_inside c index y) by (done || lia).
      apply get_inside; [lia|]. unfold add. cbn [items].
      rewrite lookup_app_l; [done|]. by eapply lookup_lt_Some.
  - intros index Hint Hgt. apply get_outside; [done|lia].
  - intros Hlt. rewrite !size_exact by lia. done.
  - intros Hfull. unfold size. rewrite Hgrow, Hfull. reflexivity.
Qed.

(** X6: a cursor reads the container through its reference: after a full
    traversal of a container, elements appended later are retrieved, in
    append order, by a second traversal with the same cursor. *)
Theorem traversal_resumes c (ys : list T) (fuel1 fuel2 : nat) :
  vector_size c + Z.of_nat (length ys) ≤ INT_MAX →
  (length (items c) < fuel1)%nat →
  (length ys < fuel2)%nat →
  ∃ it1 it2,
    traverse fuel1 c (createIterator c) = Some (Return (items c), it1) ∧
    hasNext c it1 = false ∧
    traverse fuel2 (add_all c ys) it1 = Some (Return ys, it2) ∧
    hasNext (add_all c ys) it2 = false.
Proof.
  intros Hfit Hfuel1 Hfuel2.
  set (c' := add_all c ys).
  assert (items c' = items c ++ ys) as Hitems by apply items_add_all.
  assert (vector_size c' = vector_size c + Z.of_nat (length ys)) as Hsize'.
  { unfold vector_size. rewrite Hitems, length_app. lia. }
  pose proof (vector_size_nonneg c) as Hnonneg.
  exists {| currentIndex := vector_size c |},
         {| currentIndex := vector_size c' |}.
  split_and!.
  - apply (traverse_from c [] (items c) fuel1); [done|lia|done].
  - apply hasNext_ge. simpl. apply size_le_vector_size.
  - apply (traverse_from c' (items c) ys fuel2); [done|lia|done].
  - apply hasNext_ge. simpl. apply size_le_vector_size.
Qed.

(** [k] calls of [next] on the cursor at [p], which stands at position
    [i]. *)
Lemma run_repeated_next c (p : nat) (k : nat) :
  vector_size c ≤ INT_MAX →
  ∀ w (i : nat),
    collection w = c →
    cursors w !! p = Some {| currentIndex := Z.of_nat i |} →
    (i ≤ length (items c))%nat →
    ∃ w',
      run (replicate k (CallNext p)) w
      = Some (w',
              ((λ x, NextIs (Return x)) <$> take k (drop i (items c)))
              ++ replicate (k - (length (items c) - i))
                   (NextIs (Throw (out_of_range "No more elements")))) ∧
      collection w' = c ∧
      cursors w' !! p
      = Some {| currentIndex := Z.of_nat (Nat.min (i + k) (length (items c))) |}.
Proof.
  intros Hfit. induction k as [|k IH]; intros w i Hc Hp Hi.
  - exists w. rewrite Nat.add_0_r, Nat.min_l by done. by rewrite take_0.
  - rewrite replicate_S. cbn [run exec]. rewrite Hp, Hc.
    set (it := {| currentIndex := Z.of_nat i |}).
    destruct (decide (i < length (items c))%nat) as [Hlt|Hge].
    + assert (hasNext c it = true) as Hnext.
      { apply hasNext_lt. rewrite (size_exact c Hfit). unfold vector_size.
        simpl. lia. }
      destruct (next_inside c it ltac:(simpl; lia) Hnext) as [x [Hx Hnx]].
      rewrite Hnx. cbn [fst snd]. simpl in Hx. rewrite Nat2Z.id in Hx.
      destruct (IH {| collection := c;
                      cursors := <[p := {| currentIndex := currentIndex it + 1 |}]>
                                   (cursors w) |} (S i))
        as (w' & Hrun & Hc' & Hp'); [done| |lia|].
      { cbn [cursors]. rewrite lookup_insert_eq. do 2 f_equal. simpl. lia. }
      exists w'. rewrite Hrun. split_and!; [|done|].
      * rewrite (drop_S _ x i Hx). cbn [take fmap list_fmap].
        by replace (S k - (length (items c) - i))%nat
          with (k - (length (items c) - S i))%nat by lia.
      * rewrite Hp'. do 3 f_equal. lia.
    + assert (i = length (items c)) as Hend by lia.
      assert (hasNext c it = false) as Hnext.
      { apply hasNext_ge. rewrite (size_exact c Hfit). unfold vector_size.
        simpl. lia. }
      rewrite (next_at_end c it Hnext). cbn [fst snd].
      destruct (IH {| collection := c; cursors := <[p := it]> (cursors w) |} i)
        as (w' & Hrun & Hc' & Hp'); [done| |lia|].
      { cbn [cursors]. apply lookup_insert_eq. }
      exists w'. rewrite Hrun. split_and!; [|done|].
      * rewrite drop_ge, !take_nil by lia. cbn [fmap list_fmap app].
        replace (S k - (length (items c) - i))%nat
          with (S (k - (length (items c) - i)))%nat by lia.
        by rewrite replicate_S.
      * rewrite Hp'. do 3 f_equal. lia.
Qed.

Lemma exec_create_start c :
  exec (start c) CallCreateIterator
  = Some ({| collection := c;
             cursors := {[ 0%nat := {| currentIndex := 0 |} ]} |},
          Created 0%nat).
Proof. reflexivity. Qed.

(** X7: [k] calls of [next] on a new cursor return the first [k] stored
    elements in order; once the elements are used up every further call
    throws [out_of_range], and the cursor stays at the end. *)
Theorem repeated_next c (k : nat) :
  vector_size c ≤ INT_MAX →
  ∃ w,
    run (CallCreateIterator :: replicate k (CallNext 0%nat)) (start c)
    = Some (w,
            Created 0%nat
            :: ((λ x, NextIs (Return x)) <$> take k (items c))
            ++ replicate (k - length (items c))
                 (NextIs (Throw (out_of_range "No more elements")))) ∧
    cursors w !! 0%nat
    = Some {| currentIndex := Z.of_nat (Nat.min k (length (items c))) |}.
Proof.
  intros Hfit.
  destruct (run_repeated_next c 0%nat k Hfit
              {| collection := c;
                 cursors := {[ 0%nat := {| currentIndex := 0 |} ]} |} 0%nat)
    as (w & Hrun & _ & Hp); [done|apply lookup_singleton_eq|lia|].
  exists w. split; [|done].
  cbn [run]. rewrite exec_create_start, Hrun. by rewrite Nat.sub_0_r.
Qed.

End Container.

Lemma traversal_yields_appended_witness :
  let xs := [10; 20; 30] in
  let c := add_all new_collection xs in
  Z.of_nat (length xs) ≤ INT_MAX ∧
  (length xs < 4)%nat ∧
  ∃ it', traverse 4 c (createIterator c) = Some (Return xs, it') ∧
         hasNext c it' = false.
Proof.
  intros xs c.
  assert (Z.of_nat (length xs) ≤ INT_MAX) as Hfit
    by (vm_compute; discriminate).
  assert (length xs < 4)%nat as Hfuel by (simpl; lia).
  exact (conj Hfit (conj Hfuel (traversal_yields_appended xs 4 Hfit Hfuel))).
Defined.

(** The two loops of [main] over the container of 1, 2, 3, 4, 5. *)
Example main_traversal :
  let c := add_all new_collection [1; 2; 3; 4; 5] in
  size c = 5 ∧
  traverse 6 c (createIterator c)
  = Some (Return [1; 2; 3; 4; 5], {| currentIndex := 5 |}) ∧
  next c {| currentIndex := 5 |}
  = (Throw (out_of_range "No more elements"), {| currentIndex := 5 |}) ∧
  get c 5 = Throw (out_of_range "Index out of range") ∧
  get c (-1) = Throw (out_of_range "Index out of range").
Proof. vm_compute. repeat split. Qed.

(** The elements of the containers that overflow [size()]: [2^31] copies
    of the number 7. *)
Lemma vector_size_overflowing :
  vector_size (add_all new_collection (replicate (Z.to_nat 2147483648) 7))
  = 2147483648.
Proof. rewrite vector_size_replicate. apply Z2Nat.id. lia. Qed.

Lemma size_overflowing :
  size (add_all new_collection (replicate (Z.to_nat 2147483648) 7))
  = -2147483648.
Proof. unfold size. rewrite vector_size_overflowing. apply to_int_wraps. Qed.

(** C1 as stated fails: after [2^31] appends [size()] is [INT_MIN], and
    the traversal of a new cursor retrieves no element at all. *)
Lemma traversal_overflow_counterexample :
  let xs := replicate (Z.to_nat 2147483648) 7 in
  let c := add_all new_collection xs in
  Z.of_nat (length xs) = 2147483648 ∧
  ∀ fuel : nat,
    traverse (S fuel) c (createIterator c) = Some (Return [], createIterator c).
Proof.
  intros xs c. split.
  - unfold xs. rewrite length_replicate. apply Z2Nat.id. lia.
  - intros fuel. apply traverse_size_nonpositive.
    unfold c, xs. rewrite size_overflowing. lia.
Qed.

Lemma get_bounds_checked_witness :
  let xs := [10; 20; 30] in
  let c := add_all new_collection xs in
  in_int 1 ∧
  Z.of_nat (length xs) ≤ INT_MAX ∧
  (1 < 0 ∨ size c ≤ 1 →
     get c 1 = Throw (out_of_range "Index out of range")) ∧
  (0 ≤ 1 < size c →
     ∃ x, xs !! Z.to_nat 1 = Some x ∧ get c 1 = Return x).
Proof.
  intros xs c.
  assert (in_int 1) as Hint by (vm_compute; split; discriminate).
  assert (Z.of_nat (length xs) ≤ INT_MAX) as Hfit
    by (vm_compute; discriminate).
  exact (conj Hint (conj Hfit (get_bounds_checked xs 1 Hint Hfit))).
Defined.

(** C2 as stated fails: in a container of [2^31] elements index 0 is not
    less than [size()], yet [get(0)] returns the first element. *)
Lemma get_overflow_counterexample :
  let c := add_all new_collection (replicate (Z.to_nat 2147483648) 7) in
  size c ≤ 0 ∧ get c 0 = Return 7.
Proof.
  intros c. split.
  - unfold c. rewrite size_overflowing. lia.
  - apply get_first_replicate. lia.
Qed.

Lemma cursor_contract_witness :
  let c := add_all new_collection [10; 20; 30] in
  let it := {| currentIndex := 1 |} in
  vector_size c ≤ INT_MAX ∧
  0 ≤ currentIndex it ∧
  size c = Z.of_nat (length (items c)) ∧
  (hasNext c it = true ↔ currentIndex it < Z.of_nat (length (items c))) ∧
  (hasNext c it = false →
     next c it = (Throw (out_of_range "No more elements"), it)) ∧
  (hasNext c it = true →
     ∃ x, items c !! Z.to_nat (currentIndex it) = Some x ∧
          next c it = (Return x, {| currentIndex := currentIndex it + 1 |})).
Proof.
  intros c it.
  assert (vector_size c ≤ INT_MAX) as Hfit by (vm_compute; discriminate).
  assert (0 ≤ currentIndex it) as Hpos by (simpl; lia).
  exact (conj Hfit (conj Hpos (cursor_contract c it Hfit Hpos))).
Defined.

(** C3 as stated fails: over a container of [2^31] elements a new cursor
    stands at position 0, below the number of stored elements
    ([vector_size], the length of [items]), yet [hasNext()] is false and
    [next()] throws. *)
Lemma hasNext_overflow_counterexample :
  let c := add_all new_collection (replicate (Z.to_nat 2147483648) 7) in
  let it := createIterator c in
  currentIndex it = 0 ∧
  vector_size c = 2147483648 ∧
  hasNext c it = false ∧
  next c it = (Throw (out_of_range "No more elements"), it).
Proof.
  intros c it. unfold it.
  destruct (new_cursor_at_end c) as (Hzero & Hend & Hnext).
  { unfold c. rewrite size_overflowing. lia. }
  split_and!; [exact Hzero| |exact Hend|exact Hnext].
  unfold c. exact vector_size_overflowing.
Qed.

Lemma cursors_do_not_interfere_witness :
  let c := add_all new_collection [10; 20; 30] in
  let w := {| collection := c;
              cursors := <[1%nat := {| currentIndex := 0 |}]>
                           {[ 0%nat := {| currentIndex := 0 |} ]} |} in
  let w' := {| collection := c;
               cursors := <[1%nat := {| currentIndex := 0 |}]>
                            {[ 0%nat := {| currentIndex := 1 |} ]} |} in
  let ops := [CallNext 0%nat; CallHasNext 0%nat] in
  let obs := [NextIs (Return 10); HasNextIs true] in
  (0%nat ≠ 1%nat) ∧
  Forall (on_cursor 0%nat) ops ∧
  run ops w = Some (w', obs) ∧
  collection w' = collection w ∧
  cursors w' !! 1%nat = cursors w !! 1%nat ∧
  ∀ ops_q, Forall (on_cursor 1%nat) ops_q →
           snd <$> run ops_q w' = snd <$> run ops_q w.
Proof.
  intros c w w' ops obs.
  assert (0%nat ≠ 1%nat) as Hne by lia.
  assert (Forall (on_cursor 0%nat) ops) as Hops by (repeat constructor).
  assert (run ops w = Some (w', obs)) as Hrun by (vm_compute; reflexivity).
  exact (conj Hne (conj Hops (conj Hrun
           (cursors_do_not_interfere w 0%nat 1%nat ops w' obs Hne Hops Hrun)))).
Defined.

Lemma cursor_position_bounded_witness :
  let c := add_all new_collection [10; 20; 30] in
  let w := {| collection := c;
              cursors := {[ 0%nat := {| currentIndex := 1 |} ]} |} in
  let ops := [CallCreateIterator; CallNext 0%nat; CallHasNext 0%nat] in
  let obs := [Created 0%nat; NextIs (Return 10); HasNextIs true] in
  Forall is_cursor_call ops ∧
  run ops (start c) = Some (w, obs) ∧
  collection w = c ∧
  (∀ p it, cursors w !! p = Some it →
     0 ≤ currentIndex it ≤ vector_size c ∧
     (vector_size c ≤ INT_MAX → currentIndex it ≤ size c)) ∧
  (∀ w' p, exec w CallCreateIterator = Some (w', Created p) →
     cursors w' !! p = Some {| currentIndex := 0 |}) ∧
  (∀ p it w' e, cursors w !! p = Some it →
     exec w (CallNext p) = Some (w', NextIs (Throw e)) →
     cursors w' !! p = Some it).
Proof.
  intros c w ops obs.
  assert (Forall is_cursor_call ops) as Hops by (repeat constructor).
  assert (run ops (start c) = Some (w, obs)) as Hrun
    by (vm_compute; reflexivity).
  exact (conj Hops (conj Hrun (cursor_position_bounded c ops w obs Hops Hrun))).
Defined.

(** C9 as stated fails when "size" is what [size()] returns: over a
    container of [2^31] elements a new cursor stands at position 0, above
    the negative [size()]. *)
Lemma position_overflow_counterexample :
  let c := add_all new_collection (replicate (Z.to_nat 2147483648) 7) in
  run [CallCreateIterator] (start c)
  = Some ({| collection := c;
             cursors := {[ 0%nat := {| currentIndex := 0 |} ]} |},
          [Created 0%nat]) ∧
  size c < 0.
Proof.
  intros c. split.
  - apply run_create_start.
  - unfold c. rewrite size_overflowing. lia.
Qed.

Lemma get_by_vector_size_witness :
  let c := add_all new_collection [10; 20; 30] in
  in_int 3 ∧
  (3 < 0 ∨ vector_size c ≤ 3 ↔
     get c 3 = Throw (out_of_range "Index out of range")) ∧
  (0 ≤ 3 < vector_size c ↔
     ∃ x, items c !! Z.to_nat 3 = Some x ∧ get c 3 = Return x).
Proof.
  intros c.
  assert (in_int 3) as Hint by (vm_compute; split; discriminate).
  exact (conj Hint (get_by_vector_size c 3 Hint)).
Defined.

Lemma run_positions_nonneg_witness :
  let c := new_collection in
  let ops := [CallCreateIterator; CallAdd 10; CallNext 0%nat; CallNext 0%nat] in
  let w := {| collection := add c 10;
              cursors := {[ 0%nat := {| currentIndex := 1 |} ]} |} in
  let obs := [Created 0%nat; Added; NextIs (Return 10);
              NextIs (Throw (out_of_range "No more elements"))] in
  let it := {| currentIndex := 1 |} in
  run ops (start c) = Some (w, obs) ∧
  cursors w !! 0%nat = Some it ∧
  0 ≤ currentIndex it.
Proof.
  intros c ops w obs it.
  assert (run ops (start c) = Some (w, obs)) as Hrun
    by (vm_compute; reflexivity).
  assert (cursors w !! 0%nat = Some it) as Hit by (vm_compute; reflexivity).
  exact (conj Hrun (conj Hit (run_positions_nonneg c ops w obs Hrun 0%nat it Hit))).
Defined.

Lemma add_then_get_witness :
  let c := add_all new_collection [10; 20; 30] in
  vector_size c ≤ INT_MAX ∧
  vector_size (add c 40) = vector_size c + 1 ∧
  get (add c 40) (vector_size c) = Return 40 ∧
  (∀ index, in_int index → index < vector_size c →
            get (add c 40) index = get c index) ∧
  (∀ index, in_int index → vector_size c < index →
            get (add c 40) index = Throw (out_of_range "Index out of range")) ∧
  (vector_size c < INT_MAX → size (add c 40) = size c + 1) ∧
  (vector_size c = INT_MAX → size (add c 40) = INT_MIN).
Proof.
  intros c.
  assert (vector_size c ≤ INT_MAX) as Hfit by (vm_compute; discriminate).
  exact (conj Hfit (add_then_get c 40 Hfit)).
Defined.

Lemma traversal_resumes_witness :
  let c := add_all new_collection [10; 20] in
  let ys := [30; 40; 50] in
  vector_size c + Z.of_nat (length ys) ≤ INT_MAX ∧
  (length (items c) < 3)%nat ∧
  (length ys < 4)%nat ∧
  ∃ it1 it2,
    traverse 3 c (createIterator c) = Some (Return (items c), it1) ∧
    hasNext c it1 = false ∧
    traverse 4 (add_all c ys) it1 = Some (Return ys, it2) ∧
    hasNext (add_all c ys) it2 = false.
Proof.
  intros c ys.
  assert (vector_size c + Z.of_nat (length ys) ≤ INT_MAX) as Hfit
    by (vm_compute; discriminate).
  assert (length (items c) < 3)%nat as Hfuel1 by (simpl; lia).
  assert (length ys < 4)%nat as Hfuel2 by (simpl; lia).
  exact (conj Hfit (conj Hfuel1 (conj Hfuel2
           (traversal_resumes c ys 3 4 Hfit Hfuel1 Hfuel2)))).
Defined.

Lemma repeated_next_witness :
  let c := add_all new_collection [10; 20] in
  vector_size c ≤ INT_MAX ∧
  ∃ w,
    run (CallCreateIterator :: replicate 3 (CallNext 0%nat)) (start c)
    = Some (w,
            Created 0%nat
            :: ((λ x, NextIs (Return x)) <$> take 3 (items c))
            ++ replicate (3 - length (items c))
                 (NextIs (Throw (out_of_range "No more elements")))) ∧
    cursors w !! 0%nat
    = Some {| currentIndex := Z.of_nat (Nat.min 3 (length (items c))) |}.
Proof.
  intros c.
  assert (vector_size c ≤ INT_MAX) as Hfit by (vm_compute; discriminate).
  exact (conj Hfit (repeated_next c 3 Hfit)).
Defined.

End IteratorSpec.

(** * The subject and its observers *)

Module ObserverSpec.

Import ObserverDemo.
Local Open Scope Z_scope.

Implicit Types (s this : ConcreteSubject) (w : World) (p q self : nat).
Implicit Types (obs : list nat).

(** ** [std::remove_if] and [erase] *)

Lemma elem_of_remove_if {A} (pred : A → bool) (l : list A) (x : A) :
  x ∈ remove_if pred l ↔ x ∈ l ∧ pred x = false.
Proof.
  induction l as [|y l IH]; simpl.
  - split; [by intros ?%elem_of_nil | by intros [?%elem_of_nil _]].
  - destruct (pred y) eqn:Hy; rewrite ?elem_of_cons, IH, ?elem_of_cons.
    + split; [tauto|]. intros [[->|Hx] Hpx]; [congruence|done].
    + split; [|tauto]. intros [->|[Hx Hpx]]; [|tauto]. by split; [left|].
Qed.

Lemma remove_if_none {A} (pred : A → bool) (l : list A) :
  (∀ x, x ∈ l → pred x = false) → remove_if pred l = l.
Proof.
  induction l as [|y l IH]; intros Hl; simpl; [done|].
  rewrite (Hl y) by (apply elem_of_cons; by left).
  f_equal. apply IH. intros x Hx. apply Hl. apply elem_of_cons. by right.
Qed.

Lemma remove_if_sublist {A} (pred : A → bool) (l : list A) :
  remove_if pred l `sublist_of` l.
Proof.
  induction l as [|y l IH]; simpl; [constructor|].
  destruct (pred y); by constructor.
Qed.

Lemma count_occ_remove_if (ptr : nat) (l : list nat) (q : nat) :
  q ≠ ptr →
  count_occ Nat.eq_dec (remove_if (λ x, Nat.eqb x ptr) l) q
  = count_occ Nat.eq_dec l q.
Proof.
  intros Hq. induction l as [|y l IH]; simpl; [done|].
  destruct (Nat.eqb_spec y ptr) as [->|Hy].
  - by destruct (Nat.eq_dec ptr q) as [->|_].
  - simpl. by rewrite IH.
Qed.

(** ** [update] *)

Lemma update_concrete self this w o :
  heap w !! self = Some o →
  update self (Some (IsConcreteSubject this)) w
  = Some {| heap := <[self := {| observer_state := getState this |}]> (heap w);
            stdout := stdout w ++ [update_line (getState this)];
            update_calls := update_calls w ++ [self] |}.
Proof. intros Hself. unfold update. by rewrite Hself. Qed.

Lemma update_not_concrete self subject w o :
  heap w !! self = Some o →
  dynamic_cast_ConcreteSubject subject = None →
  update self subject w
  = Some {| heap := heap w; stdout := stdout w;
            update_calls := update_calls w ++ [self] |}.
Proof. intros Hself Hcast. unfold update. by rewrite Hself, Hcast. Qed.

(** ** [notify] *)

(** A broadcast over live observers completes; it overwrites the mirrored
    state of every observer in the list, leaves every other object as it
    was, calls [update] once per entry of the list, in order, and writes
    one line per call. *)
Lemma notify_loop_spec this obs w :
  Forall (λ p, is_Some (heap w !! p)) obs →
  ∃ w', notify_loop this obs w = Some w' ∧
        (∀ p, p ∈ obs →
              heap w' !! p = Some {| observer_state := getState this |}) ∧
        (∀ p, p ∉ obs → heap w' !! p = heap w !! p) ∧
        (∀ p, is_Some (heap w' !! p) ↔ is_Some (heap w !! p)) ∧
        update_calls w' = update_calls w ++ obs ∧
        stdout w' = stdout w ++ replicate (length obs) (update_line (getState this)).
Proof.
  revert w. induction obs as [|p obs IH]; intros w Hlive.
  - exists w. simpl. rewrite !app_nil_r. split_and!; try done.
    by intros p ?%elem_of_nil.
  - apply Forall_cons in Hlive as [[o Hp] Hlive]. cbn [notify_loop].
    rewrite (update_concrete p this w o Hp).
    set (w1 := {| heap := <[p := {| observer_state := getState this |}]> (heap w);
                  stdout := stdout w ++ [update_line (getState this)];
                  update_calls := update_calls w ++ [p] |}).
    destruct (IH w1) as (w' & Hrun & Hin & Hout & Hdom & Hcalls & Hlines).
    { eapply Forall_impl; [exact Hlive|]. intros q Hq. unfold w1.
      cbn [heap]. rewrite lookup_insert. by case_decide. }
    exists w'. split_and!; [done| | | | |].
    + intros q [->|Hq]%elem_of_cons; [|by apply Hin].
      destruct (decide (p ∈ obs)) as [Hpin|Hpout]; [by apply Hin|].
      rewrite (Hout p Hpout). unfold w1. cbn [heap]. apply lookup_insert_eq.
    + intros q Hq. apply not_elem_of_cons in Hq as [Hne Hq].
      rewrite (Hout q Hq). unfold w1. cbn [heap].
      by apply lookup_insert_ne.
    + intros q. rewrite Hdom. unfold w1. cbn [heap]. rewrite lookup_insert.
      case_decide; [subst q; by rewrite Hp|done].
    + rewrite Hcalls. unfold w1. cbn [update_calls]. by rewrite <- app_assoc.
    + rewrite Hlines. unfold w1. cbn [stdout]. by rewrite <- app_assoc.
Qed.

Lemma updates_of_app w w' obs p :
  update_calls w' = update_calls w ++ obs →
  updates_of w' p = (updates_of w p + count_occ Nat.eq_dec obs p)%nat.
Proof. intros Hcalls. unfold updates_of. by rewrite Hcalls, count_occ_app. Qed.

Lemma notify_spec this w :
  attached_live this w →
  ∃ w', notify this w = Some w' ∧
        (∀ p, p ∈ observers this → mirrored w' p = Some (getState this)) ∧
        (∀ p, p ∉ observers this → heap w' !! p = heap w !! p) ∧
        (∀ p, is_Some (heap w' !! p) ↔ is_Some (heap w !! p)) ∧
        update_calls w' = update_calls w ++ observers this ∧
        stdout w' = stdout w ++ replicate (length (observers this))
                                  (update_line (getState this)).
Proof.
  intros Hlive.
  destruct (notify_loop_spec this (observers this) w Hlive)
    as (w' & Hrun & Hin & Hrest).
  exists w'. split; [done|]. split; [|done].
  intros p Hp. unfold mirrored. by rewrite (Hin p Hp).
Qed.

(** X1: a broadcast over live observers completes and reaches exactly the
    subscribers attached at the call: [update] is called on an observer as
    often as the list holds it, an attached observer mirrors the subject's
    state afterwards, and an observer that is not attached is not called
    and keeps its state. *)
Theorem broadcast_reaches_attached this w p :
  attached_live this w →
  ∃ w', notify this w = Some w' ∧
        updates_of w' p
        = (updates_of w p + count_occ Nat.eq_dec (observers this) p)%nat ∧
        (p ∈ observers this → mirrored w' p = Some (getState this)) ∧
        (p ∉ observers this →
           heap w' !! p = heap w !! p ∧ updates_of w' p = updates_of w p).
Proof.
  intros Hlive.
  destruct (notify_spec this w Hlive)
    as (w' & Hrun & Hin & Hout & _ & Hcalls & _).
  pose proof (updates_of_app w w' _ p Hcalls) as Hcount.
  exists w'. split_and!; [done..| |].
  - apply Hin.
  - intros Hp. split; [by apply Hout|].
    rewrite Hcount.
    rewrite (proj1 (count_occ_not_In Nat.eq_dec (observers this) p))
      by (by rewrite <- list_elem_of_In).
    lia.
Qed.

(** ** C4 *)

(** C4: for every live observer A and every subject whose attached
    pointers are live, [attach(A)], [setState(1)], [notify()] completes
    and leaves A's mirrored state at 1; after that [detach(A)],
    [setState(2)], [notify()] completes and leaves it at 1. *)
Theorem mirrored_until_detached s w (A : nat) :
  is_Some (heap w !! A) →
  attached_live s w →
  let s1 := setState (attach s A) 1 in
  let s2 := setState (detach s1 A) 2 in
  ∃ w1 w2,
    notify s1 w = Some w1 ∧ mirrored w1 A = Some 1 ∧
    notify s2 w1 = Some w2 ∧ mirrored w2 A = Some 1.
Proof.
  intros HA Hlive s1 s2.
  destruct (notify_spec s1 w) as (w1 & Hrun1 & Hin1 & _ & Hdom1 & _).
  { unfold attached_live, s1. cbn [observers setState attach].
    apply Forall_app. split; [done|]. by apply Forall_singleton. }
  assert (mirrored w1 A = Some 1) as HA1.
  { apply Hin1. unfold s1. cbn [observers setState attach].
    apply elem_of_app. right. by apply list_elem_of_singleton. }
  destruct (notify_spec s2 w1) as (w2 & Hrun2 & _ & Hout2 & _).
  { unfold attached_live, s2. cbn [observers setState detach].
    apply Forall_forall. intros p [Hp _]%elem_of_remove_if.
    apply Hdom1. unfold s1 in Hp. cbn [observers setState attach] in Hp.
    apply elem_of_app in Hp as [Hp| ->%list_elem_of_singleton]; [|done].
    unfold attached_live in Hlive. rewrite Forall_forall in Hlive.
    by apply Hlive. }
  exists w1, w2. split_and!; [done..|].
  unfold mirrored. rewrite Hout2; [done|].
  unfold s2. cbn [observers setState detach].
  intros [_ Hpred]%elem_of_remove_if. by rewrite Nat.eqb_refl in Hpred.
Qed.

(** ** C5 *)

(** C5: for every live subscriber A that a subject (with live attached
    pointers) does not hold yet, after two [attach(A)] calls the list
    holds A twice, and one [notify()] completes, calls A's [update]
    exactly twice and writes one line per entry of the list. *)
Theorem attached_twice_updated_twice s w (A : nat) :
  is_Some (heap w !! A) →
  attached_live s w →
  A ∉ observers s →
  let s' := attach (attach s A) A in
  count_occ Nat.eq_dec (observers s') A = 2%nat ∧
  ∃ w', notify s' w = Some w' ∧
        updates_of w' A = (updates_of w A + 2)%nat ∧
        stdout w' = stdout w ++ replicate (length (observers s) + 2)
                                  (update_line (getState s)).
Proof.
  intros HA Hlive Hnew s'.
  assert (count_occ Nat.eq_dec (observers s') A = 2%nat) as Hcount.
  { unfold s'. cbn [observers attach]. rewrite !count_occ_app.
    rewrite (proj1 (count_occ_not_In Nat.eq_dec (observers s) A))
      by (by rewrite <- list_elem_of_In).
    simpl. by destruct (Nat.eq_dec A A). }
  split; [done|].
  destruct (notify_spec s' w) as (w' & Hrun & _ & _ & _ & Hcalls & Hlines).
  { unfold attached_live, s'. cbn [observers attach].
    rewrite !Forall_app. split_and!; [done|by apply Forall_singleton..]. }
  exists w'. split_and!; [done| |].
  - by rewrite (updates_of_app w w' _ A Hcalls), Hcount.
  - rewrite Hlines. unfold s'. cbn [observers attach].
    rewrite !length_app. simpl. do 2 f_equal. lia.
Qed.

(** ** C6 *)

(** C6: [detach(S)] leaves no entry equal to S in the notification list,
    keeps every other entry with its multiplicity and the order of the
    list, keeps the state, and changes nothing when S is not in the
    list. *)
Theorem detach_removes_every_entry s (subscriber : nat) :
  (subscriber ∉ observers (detach s subscriber)) ∧
  (∀ q, q ≠ subscriber →
        count_occ Nat.eq_dec (observers (detach s subscriber)) q
        = count_occ Nat.eq_dec (observers s) q) ∧
  (observers (detach s subscriber) `sublist_of` observers s) ∧
  subject_state (detach s subscriber) = subject_state s ∧
  (subscriber ∉ observers s → detach s subscriber = s).
Proof.
  unfold detach. cbn [observers subject_state]. split_and!.
  - intros [_ Hpred]%elem_of_remove_if. by rewrite Nat.eqb_refl in Hpred.
  - intros q Hq. by apply count_occ_remove_if.
  - apply remove_if_sublist.
  - done.
  - intros Habsent. destruct s as [st obs]. cbn [observers subject_state].
    f_equal. apply remove_if_none. intros x Hx.
    apply Nat.eqb_neq. by intros ->.
Qed.

(** ** C10 *)

(** C10: when [update] is called on a live observer with a subject that is
    not a [ConcreteSubject] (the cast yields null), the call completes,
    every observer object, the mirrored state included, is as before and
    no line is written; with a [ConcreteSubject] the mirrored state
    becomes that subject's state and one line is written. *)
Theorem update_needs_concrete_subject self (subject : option Subject) w o :
  heap w !! self = Some o →
  (dynamic_cast_ConcreteSubject subject = None →
     ∃ w', update self subject w = Some w' ∧
           heap w' = heap w ∧ mirrored w' self = Some (observer_state o) ∧
           stdout w' = stdout w) ∧
  (∀ cs, dynamic_cast_ConcreteSubject subject = Some cs →
     ∃ w', update self subject w = Some w' ∧
           mirrored w' self = Some (getState cs) ∧
           stdout w' = stdout w ++ [update_line (getState cs)]).
Proof.
  intros Hself. split.
  - intros Hcast. rewrite (update_not_concrete self subject w o Hself Hcast).
    eexists. split; [done|]. cbn [heap stdout]. split_and!; [done| |done].
    unfold mirrored. cbn [heap]. by rewrite Hself.
  - intros cs Hcast.
    assert (subject = Some (IsConcreteSubject cs)) as ->.
    { destruct subject as [[cs'|st]|]; simpl in Hcast; congruence. }
    rewrite (update_concrete self cs w o Hself).
    eexists. split; [done|]. unfold mirrored. cbn [heap stdout].
    by rewrite lookup_insert_eq.
Qed.

(** One observer at address 0 that mirrors 99, nothing written yet. *)
Lemma mirrored_until_detached_witness :
  let w := {| heap := {[ 0%nat := {| observer_state := 99 |} ]};
              stdout := []; update_calls := [] |} in
  let s := {| subject_state := 5; observers := [] |} in
  let s1 := setState (attach s 0%nat) 1 in
  let s2 := setState (detach s1 0%nat) 2 in
  is_Some (heap w !! 0%nat) ∧
  attached_live s w ∧
  ∃ w1 w2,
    notify s1 w = Some w1 ∧ mirrored w1 0%nat = Some 1 ∧
    notify s2 w1 = Some w2 ∧ mirrored w2 0%nat = Some 1.
Proof.
  intros w s.
  assert (is_Some (heap w !! 0%nat)) as HA by (vm_compute; by eexists).
  assert (attached_live s w) as Hlive by constructor.
  exact (conj HA (conj Hlive (mirrored_until_detached s w 0%nat HA Hlive))).
Defined.

Lemma attached_twice_updated_twice_witness :
  let w := {| heap := {[ 0%nat := {| observer_state := 99 |} ]};
              stdout := []; update_calls := [] |} in
  let s := {| subject_state := 5; observers := [] |} in
  let s' := attach (attach s 0%nat) 0%nat in
  is_Some (heap w !! 0%nat) ∧
  attached_live s w ∧
  (0%nat ∉ observers s) ∧
  count_occ Nat.eq_dec (observers s') 0%nat = 2%nat ∧
  ∃ w', notify s' w = Some w' ∧
        updates_of w' 0%nat = (updates_of w 0%nat + 2)%nat ∧
        stdout w' = stdout w ++ replicate (length (observers s) + 2)
                                  (update_line (getState s)).
Proof.
  intros w s.
  assert (is_Some (heap w !! 0%nat)) as HA by (vm_compute; by eexists).
  assert (attached_live s w) as Hlive by constructor.
  assert (0%nat ∉ observers s) as Hnew by (simpl; apply not_elem_of_nil).
  exact (conj HA (conj Hlive (conj Hnew
           (attached_twice_updated_twice s w 0%nat HA Hlive Hnew)))).
Defined.

Lemma update_needs_concrete_subject_witness :
  let w := {| heap := {[ 0%nat := {| observer_state := 99 |} ]};
              stdout := []; update_calls := [] |} in
  let subject := Some (OtherSubject 3) in
  let o := {| observer_state := 99 |} in
  heap w !! 0%nat = Some o ∧
  (dynamic_cast_ConcreteSubject subject = None →
     ∃ w', update 0%nat subject w = Some w' ∧
           heap w' = heap w ∧ mirrored w' 0%nat = Some (observer_state o) ∧
           stdout w' = stdout w) ∧
  (∀ cs, dynamic_cast_ConcreteSubject subject = Some cs →
     ∃ w', update 0%nat subject w = Some w' ∧
           mirrored w' 0%nat = Some (getState cs) ∧
           stdout w' = stdout w ++ [update_line (getState cs)]).
Proof.
  intros w subject o.
  assert (heap w !! 0%nat = Some o) as Hself by (vm_compute; reflexivity).
  exact (conj Hself (update_needs_concrete_subject 0%nat subject w o Hself)).
Defined.

Lemma broadcast_reaches_attached_witness :
  let w := {| heap := <[1%nat := {| observer_state := 7 |}]>
                        {[ 0%nat := {| observer_state := 99 |} ]};
              stdout := []; update_calls := [] |} in
  let this := {| subject_state := 5; observers := [0%nat] |} in
  attached_live this w ∧
  ∃ w', notify this w = Some w' ∧
        updates_of w' 1%nat
        = (updates_of w 1%nat + count_occ Nat.eq_dec (observers this) 1%nat)%nat ∧
        (1%nat ∈ observers this → mirrored w' 1%nat = Some (getState this)) ∧
        (1%nat ∉ observers this →
           heap w' !! 1%nat = heap w !! 1%nat ∧
           updates_of w' 1%nat = updates_of w 1%nat).
Proof.
  intros w this.
  assert (attached_live this w) as Hlive.
  { repeat constructor. vm_compute. by eexists. }
  exact (conj Hlive (broadcast_reaches_attached this w 1%nat Hlive)).
Defined.

(** ** Further properties of the subject *)

Lemma remove_if_app {A} (pred : A → bool) (l1 l2 : list A) :
  remove_if pred (l1 ++ l2) = remove_if pred l1 ++ remove_if pred l2.
Proof.
  induction l1 as [|y l1 IH]; simpl; [done|].
  destruct (pred y); by rewrite IH.
Qed.

Lemma remove_if_idemp {A} (pred : A → bool) (l : list A) :
  remove_if pred (remove_if pred l) = remove_if pred l.
Proof.
  apply remove_if_none. by intros x [_ Hx]%elem_of_remove_if.
Qed.

Lemma remove_if_comm {A} (pred1 pred2 : A → bool) (l : list A) :
  remove_if pred1 (remove_if pred2 l) = remove_if pred2 (remove_if pred1 l).
Proof.
  induction l as [|y l IH]; simpl; [done|].
  destruct (pred1 y) eqn:H1, (pred2 y) eqn:H2; simpl;
    rewrite ?H1, ?H2, IH; done.
Qed.

(** X8: [detach] is idempotent, two [detach] calls commute, [detach]
    undoes an [attach] of the same subscriber (giving back the subject
    when the subscriber was not attached before), and [detach] of one
    subscriber commutes with [attach] of another. *)
Theorem detach_algebra s (p q : nat) :
  detach (detach s p) p = detach s p ∧
  detach (detach s p) q = detach (detach s q) p ∧
  detach (attach s p) p = detach s p ∧
  (p ∉ observers s → detach (attach s p) p = s) ∧
  (p ≠ q → detach (attach s q) p = attach (detach s p) q).
Proof.
  assert (detach (attach s p) p = detach s p) as Hundo.
  { unfold detach, attach. cbn [observers subject_state].
    rewrite remove_if_app. simpl. by rewrite Nat.eqb_refl, app_nil_r. }
  split_and!.
  - unfold detach. cbn [observers subject_state]. by rewrite remove_if_idemp.
  - unfold detach. cbn [observers subject_state]. by rewrite remove_if_comm.
  - done.
  - intros Hp. rewrite Hundo. destruct s as [st obs].
    unfold detach. cbn [observers subject_state] in *. f_equal.
    apply remove_if_none. intros x Hx. apply Nat.eqb_neq. by intros ->.
  - intros Hpq. unfold detach, attach. cbn [observers subject_state].
    rewrite remove_if_app. simpl.
    by assert ((q =? p)%nat = false) as -> by (apply Nat.eqb_neq; congruence).
Qed.

(** A broadcast that completes found a live observer behind every
    attached pointer. *)
Lemma notify_loop_live this obs w w' :
  notify_loop this obs w = Some w' →
  Forall (λ p, is_Some (heap w !! p)) obs.
Proof.
  revert w. induction obs as [|p obs IH]; intros w Hrun; [constructor|].
  cbn [notify_loop] in Hrun.
  destruct (heap w !! p) as [o|] eqn:Hp.
  - rewrite (update_concrete p this w o Hp) in Hrun.
    constructor; [by rewrite Hp|].
    eapply Forall_impl; [by apply (IH _ Hrun)|].
    intros q. cbn [heap]. rewrite lookup_insert.
    case_decide; [subst q; by rewrite Hp|done].
  - unfold update in Hrun. by rewrite Hp in Hrun.
Qed.


(** X10: a second broadcast of the same subject state changes no
    observer: [notify] is idempotent on the observers (it writes its
    lines again). *)
Theorem notify_twice this w w1 :
  notify this w = Some w1 →
  ∃ w2, notify this w1 = Some w2 ∧
        heap w2 = heap w1 ∧
        stdout w2 = stdout w1 ++ replicate (length (observers this))
                                   (update_line (getState this)).
Proof.
  intros Hrun1.
  assert (attached_live this w) as Hlive by by eapply notify_loop_live.
  destruct (notify_loop_spec this (observers this) w Hlive)
    as (w1' & Hrun1' & Hin1 & _ & Hdom1 & _).
  unfold notify in Hrun1. rewrite Hrun1 in Hrun1'. injection Hrun1' as <-.
  destruct (notify_loop_spec this (observers this) w1)
    as (w2 & Hrun2 & Hin2 & Hout2 & _ & _ & Hlines2).
  { eapply Forall_impl; [exact Hlive|]. intros p Hp. by apply Hdom1. }
  exists w2. split_and!; [done| |done].
  apply map_eq. intros p.
  destruct (decide (p ∈ observers this)) as [Hp|Hp].
  - by rewrite (Hin1 p Hp), (Hin2 p Hp).
  - by apply Hout2.
Qed.

(** X11: [notify] dereferences every attached pointer: it is defined
    exactly when each of them addresses a live observer. Destroying an
    attached observer leaves its pointer in the list, so a later [notify]
    is undefined; after [detach] of that observer it is defined again. *)
Theorem notify_needs_live_observers this w :
  (is_Some (notify this w) ↔ attached_live this w) ∧
  (∀ p w', p ∈ observers this →
           destroy_ConcreteObserver p w = Some w' →
           notify this w' = None ∧
           (attached_live this w → is_Some (notify (detach this p) w'))).
Proof.
  assert (∀ s v, is_Some (notify s v) ↔ attached_live s v) as Hiff.
  { intros s v. split.
    - intros [v' Hrun]. by eapply notify_loop_live.
    - intros Hlive. destruct (notify_spec s v Hlive) as (v' & Hrun & _).
      by exists v'. }
  split; [apply Hiff|].
  intros p w' Hp Hdestroy. unfold destroy_ConcreteObserver in Hdestroy.
  destruct (heap w !! p) as [o|] eqn:Hlivep; [|done].
  injection Hdestroy as <-. split.
  - apply eq_None_not_Some. rewrite Hiff. unfold attached_live.
    rewrite Forall_forall. intros Hall. specialize (Hall p Hp).
    cbn [heap] in Hall. rewrite lookup_delete_eq in Hall.
    by destruct Hall.
  - intros Hlive. apply Hiff. unfold attached_live in *.
    rewrite Forall_forall in Hlive |- *. unfold detach.
    cbn [observers heap]. intros q [Hq Hne]%elem_of_remove_if.
    apply Nat.eqb_neq in Hne. rewrite lookup_delete_ne by done.
    by apply Hlive.
Qed.

(** X12: an observer attached to two subjects mirrors the subject that
    notified last. *)
Theorem last_notifier_wins s1 s2 w p :
  attached_live s1 w →
  attached_live s2 w →
  p ∈ observers s1 →
  p ∈ observers s2 →
  ∃ w1 w2, notify s1 w = Some w1 ∧ mirrored w1 p = Some (getState s1) ∧
           notify s2 w1 = Some w2 ∧ mirrored w2 p = Some (getState s2).
Proof.
  intros Hlive1 Hlive2 Hp1 Hp2.
  destruct (notify_spec s1 w Hlive1) as (w1 & Hrun1 & Hin1 & _ & Hdom1 & _).
  destruct (notify_spec s2 w1) as (w2 & Hrun2 & Hin2 & _).
  { eapply Forall_impl; [exact Hlive2|]. intros q Hq. by apply Hdom1. }
  exists w1, w2. split_and!; [done| by apply Hin1 | done | by apply Hin2].
Qed.


Lemma notify_twice_witness :
  let w := {| heap := {[ 0%nat := {| observer_state := 99 |} ]};
              stdout := []; update_calls := [] |} in
  let this := {| subject_state := 4; observers := [0%nat] |} in
  let w1 := {| heap := {[ 0%nat := {| observer_state := 4 |} ]};
               stdout := ["ConcreteObserver updated: 4"];
               update_calls := [0%nat] |} in
  notify this w = Some w1 ∧
  ∃ w2, notify this w1 = Some w2 ∧
        heap w2 = heap w1 ∧
        stdout w2 = stdout w1 ++ replicate (length (observers this))
                                   (update_line (getState this)).
Proof.
  intros w this w1.
  assert (notify this w = Some w1) as Hrun by (vm_compute; reflexivity).
  exact (conj Hrun (notify_twice this w w1 Hrun)).
Defined.

Lemma last_notifier_wins_witness :
  let w := {| heap := {[ 0%nat := {| observer_state := 99 |} ]};
              stdout := []; update_calls := [] |} in
  let s1 := {| subject_state := 1; observers := [0%nat] |} in
  let s2 := {| subject_state := 2; observers := [0%nat] |} in
  attached_live s1 w ∧
  attached_live s2 w ∧
  (0%nat ∈ observers s1) ∧
  (0%nat ∈ observers s2) ∧
  ∃ w1 w2, notify s1 w = Some w1 ∧ mirrored w1 0%nat = Some (getState s1) ∧
           notify s2 w1 = Some w2 ∧ mirrored w2 0%nat = Some (getState s2).
Proof.
  intros w s1 s2.
  assert (attached_live s1 w) as Hlive1.
  { repeat constructor; vm_compute; by eexists. }
  assert (attached_live s2 w) as Hlive2.
  { repeat constructor; vm_compute; by eexists. }
  assert (0%nat ∈ observers s1) as Hp1 by (simpl; apply elem_of_cons; by left).
  assert (0%nat ∈ observers s2) as Hp2 by (simpl; apply elem_of_cons; by left).
  exact (conj Hlive1 (conj Hlive2 (conj Hp1 (conj Hp2
           (last_notifier_wins s1 s2 w 0%nat Hlive1 Hlive2 Hp1 Hp2))))).
Defined.

(** The whole of [main], the two destructors at the end of the scope
    included. *)
Example main_output :
  let w0 := {| heap := ∅; stdout := []; update_calls := [] |} in
  let '(subject, w1) := new_ConcreteSubject 0 w0 in
  let '(observer, w2) := new_ConcreteObserver 0 w1 in
  let subject := setState (attach subject observer) 1 in
  let after := w3 ← notify subject w2;
               let subject := setState subject 2 in
               w4 ← notify subject w3;
               let subject := detach subject observer in
               w5 ← destroy_ConcreteObserver observer w4;
               Some (destroy_ConcreteSubject subject w5) in
  stdout <$> after
  = Some ["ConcreteSubject created"; "ConcreteObserver created";
          "ConcreteObserver updated: 1"; "ConcreteObserver updated: 2";
          "ConcreteObserver destroyed"; "ConcreteSubject destroyed"].
Proof. vm_compute. reflexivity. Qed.

(** The calls of [main]: one observer, two broadcasts, then the detach. *)
Example main_broadcasts :
  let w0 := {| heap := ∅; stdout := []; update_calls := [] |} in
  let '(subject, w1) := new_ConcreteSubject 0 w0 in
  let '(observer, w2) := new_ConcreteObserver 0 w1 in
  let subject := setState (attach subject observer) 1 in
  let after := w3 ← notify subject w2;
               let subject := setState subject 2 in
               w4 ← notify subject w3;
               Some (detach subject observer, w4) in
  (λ r, (observers r.1, mirrored r.2 observer, stdout r.2)) <$> after
  = Some ([], Some 2,
          ["ConcreteSubject created"; "ConcreteObserver created";
           "ConcreteObserver updated: 1"; "ConcreteObserver updated: 2"]).
Proof. vm_compute. reflexivity. Qed.

End ObserverSpec.

(** * The zoo and its visitors *)

Module VisitorSpec.

Import VisitorDemo.

Section AnyVisitor.

Context `{AnimalVisitor V}.

(** The virtual call reaches the overload for the class of the animal. *)
Lemma Animal_accept_dispatch (st : V * list string) :
  (∀ lion, Animal_accept (IsLion lion) st = visit_Lion lion st) ∧
  (∀ tiger, Animal_accept (IsTiger tiger) st = visit_Tiger tiger st).
Proof. split; intros animal; reflexivity. Qed.

End AnyVisitor.

(** A run of [addAnimal] calls keeps the animals in the order of the
    calls. *)
Lemma animals_addAnimal (zoo : Zoo) (new : list Animal) :
  animals (foldl addAnimal zoo new) = animals zoo ++ new.
Proof.
  revert zoo. induction new as [|a new IH]; intros zoo; simpl.
  - by rewrite app_nil_r.
  - rewrite IH. simpl. by rewrite <- app_assoc.
Qed.

(** The loop of [Zoo::accept] under the feeding operation. *)
Lemma feeding_loop (l : list Animal) (v : FeedingVisitor) (out : list string) :
  foldl (λ acc animal, Animal_accept animal acc) (v, out) l
  = (v, out ++ (feeding_line <$> l)).
Proof.
  revert out. induction l as [|a l IH]; intros out; simpl.
  - by rewrite app_nil_r.
  - destruct a as [lion|tiger]; simpl; unfold Lion_accept, Tiger_accept;
      simpl; unfold FeedingVisitor_visit_Lion, FeedingVisitor_visit_Tiger;
      simpl; rewrite IH; by rewrite <- app_assoc.
Qed.

(** The loop of [Zoo::accept] under the recording visitor. *)
Lemma recording_loop (l : list Animal) (log : list handler_call)
  (out : list string) :
  foldl (λ acc animal, Animal_accept animal acc) (log, out) l
  = (log ++ (matching_handler <$> l), out).
Proof.
  revert log. induction l as [|a l IH]; intros log; simpl.
  - by rewrite app_nil_r.
  - destruct a as [lion|tiger]; simpl; unfold Lion_accept, Tiger_accept;
      simpl; rewrite IH; by rewrite <- app_assoc.
Qed.

(** ** C7 *)

(** C7: for the zoo into which Lion "Simba" and then Tiger "Shere Khan"
    were added, [accept] with a feeding visitor appends the start marker,
    the Lion handler's line for Simba, the Tiger handler's line for Shere
    Khan and the end marker; for every zoo, [accept] with a feeding
    visitor writes the start marker, one line per animal in insertion
    order and the end marker, and [accept] with the recording visitor runs
    on every animal, in insertion order, the handler of its class; for
    every visitor the virtual [accept] of a Lion runs the Lion overload
    and that of a Tiger the Tiger overload. *)
Theorem zoo_accept_feeds_in_order :
  (∀ out,
     let zoo := addAnimal (addAnimal {| animals := [] |}
                             (IsLion {| Lion_getName := "Simba" |}))
                  (IsTiger {| Tiger_getName := "Shere Khan" |}) in
     Zoo_accept zoo (mkFeedingVisitor, out)
     = (mkFeedingVisitor,
        out ++ ["---START---"; "Feeding to Lion: Simba";
                "Feeding to Tiger: Shere Khan"; "----END----"])) ∧
  (∀ (zoo : Zoo) (new : list Animal) (v : FeedingVisitor) out,
     Zoo_accept (foldl addAnimal zoo new) (v, out)
     = (v, out ++ ["---START---"]
             ++ (feeding_line <$> animals zoo ++ new)
             ++ ["----END----"])) ∧
  (∀ (zoo : Zoo) (new : list Animal) (log : list handler_call) out,
     Zoo_accept (foldl addAnimal zoo new) (log, out)
     = (log ++ (matching_handler <$> animals zoo ++ new),
        out ++ ["---START---"; "----END----"])) ∧
  (∀ V (visitor : AnimalVisitor V) (st : V * list string) lion tiger,
     Animal_accept (IsLion lion) st = visit_Lion lion st ∧
     Animal_accept (IsTiger tiger) st = visit_Tiger tiger st).
Proof.
  assert (∀ (zoo : Zoo) (v : FeedingVisitor) out,
            Zoo_accept zoo (v, out)
            = (v, out ++ ["---START---"] ++ (feeding_line <$> animals zoo)
                    ++ ["----END----"])) as Hfeed.
  { intros zoo v out. unfold Zoo_accept. cbn [fst snd].
    rewrite feeding_loop. cbn [fst snd]. by rewrite <- !app_assoc. }
  split_and!.
  - intros out zoo. rewrite Hfeed. reflexivity.
  - intros zoo new v out. by rewrite Hfeed, animals_addAnimal.
  - intros zoo new log out. unfold Zoo_accept. cbn [fst snd].
    rewrite recording_loop, animals_addAnimal. cbn [fst snd].
    by rewrite <- app_assoc.
  - intros V visitor st lion tiger.
    split; [apply (Animal_accept_dispatch st) | apply (Animal_accept_dispatch st)].
Qed.

(** The traversal of [main]: two lions, then two tigers. *)
Example main_feeding :
  let zoo := foldl addAnimal {| animals := [] |}
               [IsLion (mkLion "Simba"); IsLion (mkLion "Mufasa");
                IsTiger (mkTiger "Shere Khan"); IsTiger (mkTiger "Sher Khan")] in
  (Zoo_accept zoo (mkFeedingVisitor, [])).2
  = ["---START---"; "Feeding to Lion: Simba"; "Feeding to Lion: Mufasa";
     "Feeding to Tiger: Shere Khan"; "Feeding to Tiger: Sher Khan";
     "----END----"].
Proof. vm_compute. reflexivity. Qed.

(** ** Further properties of the zoo *)

Section AppendOnly.

Context `{AnimalVisitor V}.

Lemma accept_loop_appends (l : list Animal) :
  appends_only V →
  ∀ st : V * list string,
    ∃ lines,
      (foldl (λ acc animal, Animal_accept animal acc) st l).2 = st.2 ++ lines.
Proof.
  intros [Hlion Htiger]. induction l as [|a l IH]; intros st; simpl.
  - exists []. by rewrite app_nil_r.
  - destruct (IH (Animal_accept a st)) as [rest Hrest].
    assert (∃ first, (Animal_accept a st).2 = st.2 ++ first) as [first Hfirst].
    { destruct a as [lion|tiger]; [apply Hlion|apply Htiger]. }
    exists (first ++ rest). by rewrite Hrest, Hfirst, <- app_assoc.
Qed.

(** X13: for every visitor whose handlers only append to standard output,
    [Zoo::accept] keeps what was written before, writes the start marker
    before anything a handler writes and the end marker after everything
    the handlers wrote. *)
Theorem markers_bracket_output :
  appends_only V →
  ∀ (zoo : Zoo) (st : V * list string),
    ∃ middle,
      (Zoo_accept zoo st).2
      = st.2 ++ ["---START---"] ++ middle ++ ["----END----"].
Proof.
  intros Happ zoo st. unfold Zoo_accept.
  destruct (accept_loop_appends (animals zoo) Happ
              (st.1, st.2 ++ ["---START---"])) as [middle Hmiddle].
  exists middle. cbn [fst snd] in *. rewrite Hmiddle.
  by rewrite <- !app_assoc.
Qed.

End AppendOnly.

Lemma FeedingVisitor_appends_only : appends_only FeedingVisitor.
Proof.
  split; intros animal st; eexists; reflexivity.
Qed.

Lemma markers_bracket_output_witness :
  appends_only FeedingVisitor ∧
  ∀ (zoo : Zoo) (st : FeedingVisitor * list string),
    ∃ middle,
      (Zoo_accept zoo st).2
      = st.2 ++ ["---START---"] ++ middle ++ ["----END----"].
Proof.
  exact (conj FeedingVisitor_appends_only
           (markers_bracket_output FeedingVisitor_appends_only)).
Defined.

(** The line of the feeding operation tells the class and the name of the
    animal. *)
Lemma feeding_line_inj (a b : Animal) :
  feeding_line a = feeding_line b → a = b.
Proof.
  destruct a as [[n1]|[n1]], b as [[n2]|[n2]]; simpl; intros Heq;
    cbv in Heq; congruence.
Qed.

Lemma feeding_lines_inj (l1 l2 : list Animal) :
  feeding_line <$> l1 = feeding_line <$> l2 → l1 = l2.
Proof.
  revert l2. induction l1 as [|a l1 IH]; intros [|b l2] Heq; try done.
  injection Heq as Hab Hrest.
  by rewrite (feeding_line_inj a b Hab), (IH l2 Hrest).
Qed.

(** *** Standard output as bytes *)

Lemma line_feed_code : Ascii.nat_of_ascii line_feed = 10%nat.
Proof. reflexivity. Qed.

Lemma append_String (ch : Ascii.ascii) (s t : string) :
  String ch s +:+ t = String ch (s +:+ t).
Proof. reflexivity. Qed.

Lemma append_assoc (s t u : string) : (s +:+ t) +:+ u = s +:+ (t +:+ u).
Proof.
  induction s as [|ch s IH]; [done|].
  by rewrite !append_String, IH.
Qed.

Lemma stdout_bytes_app (l1 l2 : list string) :
  stdout_bytes (l1 ++ l2) = stdout_bytes l1 +:+ stdout_bytes l2.
Proof.
  induction l1 as [|line l1 IH]; [done|].
  cbn [app stdout_bytes]. by rewrite IH, append_assoc, append_String.
Qed.

(** Two texts without line feed that are each followed by a line feed
    start equal byte sequences only when they are the same text. *)
Lemma line_split (a b r1 r2 : string) :
  newline_free a → newline_free b →
  a +:+ String line_feed r1 = b +:+ String line_feed r2 →
  a = b ∧ r1 = r2.
Proof.
  revert b. induction a as [|ch a IH]; intros [|ch' b] Ha Hb Heq.
  - by injection Heq as ->.
  - rewrite append_String in Heq. injection Heq as Hch _.
    destruct Hb as [Hne _]. by destruct Hne.
  - rewrite append_String in Heq. injection Heq as Hch _.
    destruct Ha as [Hne _]. by destruct Hne.
  - rewrite !append_String in Heq. injection Heq as -> Hrest.
    destruct Ha as [_ Ha], Hb as [_ Hb].
    destruct (IH b Ha Hb Hrest) as [-> ->]. done.
Qed.

(** Lines without line feed can be read back from the bytes. *)
Lemma stdout_bytes_inj (l1 l2 : list string) :
  Forall newline_free l1 → Forall newline_free l2 →
  stdout_bytes l1 = stdout_bytes l2 → l1 = l2.
Proof.
  revert l2. induction l1 as [|a l1 IH]; intros [|b l2] H1 H2 Heq.
  - done.
  - cbn [stdout_bytes] in Heq. by destruct b.
  - cbn [stdout_bytes] in Heq. by destruct a.
  - apply Forall_cons in H1 as [Ha H1]. apply Forall_cons in H2 as [Hb H2].
    cbn [stdout_bytes] in Heq.
    destruct (line_split a b _ _ Ha Hb Heq) as [-> Hrest].
    by rewrite (IH l2 H1 H2 Hrest).
Qed.

Lemma newline_free_append (s t : string) :
  newline_free s → newline_free t → newline_free (s +:+ t).
Proof.
  intros Hs Ht. induction s as [|ch s IH]; [done|].
  rewrite append_String. destruct Hs as [Hch Hs]. split; [done|by apply IH].
Qed.

Lemma feeding_line_newline_free (a : Animal) :
  newline_free (Animal_name a) → newline_free (feeding_line a).
Proof.
  intros Ha. destruct a as [lion|tiger]; cbn [feeding_line];
    (apply newline_free_append; [|done]); cbv; repeat split; discriminate.
Qed.

(** X14: when no animal's name holds a line feed, the bytes that the
    feeding operation writes determine the zoo: two such zoos for which
    [Zoo::accept] leaves the same bytes on standard output hold the same
    animals, of the same classes and names, in the same order. *)
Theorem feeding_bytes_determine_zoo (zoo1 zoo2 : Zoo)
  (v : FeedingVisitor) (out : list string) :
  Forall (λ a, newline_free (Animal_name a)) (animals zoo1) →
  Forall (λ a, newline_free (Animal_name a)) (animals zoo2) →
  stdout_bytes (Zoo_accept zoo1 (v, out)).2
  = stdout_bytes (Zoo_accept zoo2 (v, out)).2 →
  zoo1 = zoo2.
Proof.
  intros Hnames1 Hnames2.
  assert (∀ zoo, Forall (λ a, newline_free (Animal_name a)) (animals zoo) →
            Forall newline_free
              (["---START---"] ++ (feeding_line <$> animals zoo)
               ++ ["----END----"])) as Hlines.
  { intros zoo Hnames. apply Forall_app. split.
    - apply Forall_singleton. cbv. repeat split; discriminate.
    - apply Forall_app. split.
      + apply Forall_fmap. eapply Forall_impl; [exact Hnames|].
        intros a. apply feeding_line_newline_free.
      + apply Forall_singleton. cbv. repeat split; discriminate. }
  unfold Zoo_accept. cbn [fst snd]. rewrite !feeding_loop. cbn [fst snd].
  rewrite <- !app_assoc, !(stdout_bytes_app out). intros Heq.
  apply String.app_inj in Heq.
  apply stdout_bytes_inj in Heq; [|by apply Hlines..].
  apply app_inv_head, app_inv_tail in Heq.
  destruct zoo1 as [l1], zoo2 as [l2]. f_equal.
  by apply feeding_lines_inj.
Qed.

Lemma feeding_bytes_determine_zoo_witness :
  let zoo := {| animals := [IsLion {| Lion_getName := "Simba" |};
                            IsTiger {| Tiger_getName := "Simba" |}] |} in
  Forall (λ a, newline_free (Animal_name a)) (animals zoo) ∧
  stdout_bytes (Zoo_accept zoo (mkFeedingVisitor, [])).2
  = stdout_bytes (Zoo_accept zoo (mkFeedingVisitor, [])).2 ∧
  zoo = zoo.
Proof.
  intros zoo.
  assert (Forall (λ a, newline_free (Animal_name a)) (animals zoo)) as Hnames.
  { repeat constructor; cbv; repeat split; discriminate. }
  assert (stdout_bytes (Zoo_accept zoo (mkFeedingVisitor, [])).2
          = stdout_bytes (Zoo_accept zoo (mkFeedingVisitor, [])).2) as Heq
    by reflexivity.
  exact (conj Hnames (conj Heq
           (feeding_bytes_determine_zoo zoo zoo mkFeedingVisitor []
              Hnames Hnames Heq))).
Defined.

(** The condition on the names is needed: a name with a line feed in it
    lets one lion write the bytes of two. *)
Example feeding_bytes_ambiguous :
  let nl := String line_feed "" in
  let zoo1 := {| animals :=
                   [IsLion {| Lion_getName := "A" +:+ nl +:+ "Feeding to Lion: B" |}] |} in
  let zoo2 := {| animals := [IsLion {| Lion_getName := "A" |};
                             IsLion {| Lion_getName := "B" |}] |} in
  stdout_bytes (Zoo_accept zoo1 (mkFeedingVisitor, [])).2
  = stdout_bytes (Zoo_accept zoo2 (mkFeedingVisitor, [])).2 ∧
  length (animals zoo1) = 1%nat ∧ length (animals zoo2) = 2%nat.
Proof. vm_compute. repeat split. Qed.

End VisitorSpec.
